(** * Embedding a native 64-bit integer type in a SpiderMonkey context

    A shallow embedding of [spider-monkey-integration/example_type_embedding.cpp]:
    the hand-written adapter [AdaptedMyType] (constructor, [newObject],
    [instanceOf], [finalize], [construct], [toNumber], [toString]), the
    hardened [toNumber], and the generic call adapters [wrapFunction] and
    [wrapConstrainedMethod].

    Native callbacks are state transformers over a [World] that holds the
    JavaScript heap, the C++ free store and the argument vector [vp] of the
    call in progress.  A callback ends normally, by a C++ exception, or in
    undefined behaviour. *)

From Stdlib Require Import ZArith String Ascii List Bool Lia.
From Stdlib Require Import SpecFloat.
From stdpp Require Import gmap strings.

Local Open Scope Z_scope.

(** ** The native payload *)

(** [struct MyType { int64_t val; }] *)
Record MyType := { val : Z }.

Definition INT64_MIN : Z := - 2 ^ 63.
Definition INT64_MAX : Z := 2 ^ 63 - 1.

Definition in_int64 (z : Z) : bool := (INT64_MIN <=? z) && (z <=? INT64_MAX).

(** C++ exceptions.  The adapters throw [std::runtime_error]; a callback
    body may throw anything else, which [catch (...)] receives as well. *)
Inductive exception :=
| runtime_error (what : string)
| other_exception (tag : string).

(** ** Runtime values and objects *)

(** [JS::Value].  Numbers are IEEE 754 doubles. *)
Inductive Value :=
| UndefinedValue
| NullValue
| BooleanValue (b : bool)
| NumberValue (d : spec_float)
| StringValue (s : string)
| ObjectValue (o : positive).

(** [JSClass]: the name and the flag word; the hook slots are fixed by the
    adapter that owns the class. *)
Record JSClass := { class_name : string; class_flags : Z }.

(** [JSCLASS_HAS_PRIVATE] is bit 0 of the flag word. *)
Definition JSCLASS_HAS_PRIVATE : Z := Z.shiftl 1 0.

Definition has_private (c : JSClass) : bool :=
  negb (Z.land (class_flags c) JSCLASS_HAS_PRIVATE =? 0).

(** A [JSObject]: the address of its class, its prototype link and the
    private slot ([None] is [nullptr]). *)
Record JSObject := {
  clasp : positive;
  proto : option positive;
  private : option positive
}.

(** What a context keeps for one adapted type: the address of the adapter's
    [_jsclass] member and the pinned prototype [_proto]. *)
Record Adapter := { _jsclass : positive; _proto : option positive }.

(** Everything a callback can reach through its [JSContext*] and its [vp]. *)
Record World := {
  classes : gmap positive JSClass;
  objects : gmap positive JSObject;
  free_store : gmap positive MyType;
  pending_exception : option Value;
  registry : gmap string Adapter;
  vp : list Value
}.

Definition set_classes (f : gmap positive JSClass -> gmap positive JSClass) (w : World) : World :=
  {| classes := f (classes w); objects := objects w; free_store := free_store w;
     pending_exception := pending_exception w; registry := registry w; vp := vp w |}.

Definition set_objects (f : gmap positive JSObject -> gmap positive JSObject) (w : World) : World :=
  {| classes := classes w; objects := f (objects w); free_store := free_store w;
     pending_exception := pending_exception w; registry := registry w; vp := vp w |}.

Definition set_free_store (f : gmap positive MyType -> gmap positive MyType) (w : World) : World :=
  {| classes := classes w; objects := objects w; free_store := f (free_store w);
     pending_exception := pending_exception w; registry := registry w; vp := vp w |}.

Definition set_pending_exception (e : option Value) (w : World) : World :=
  {| classes := classes w; objects := objects w; free_store := free_store w;
     pending_exception := e; registry := registry w; vp := vp w |}.

Definition set_registry (f : gmap string Adapter -> gmap string Adapter) (w : World) : World :=
  {| classes := classes w; objects := objects w; free_store := free_store w;
     pending_exception := pending_exception w; registry := f (registry w); vp := vp w |}.

Definition set_vp (f : list Value -> list Value) (w : World) : World :=
  {| classes := classes w; objects := objects w; free_store := free_store w;
     pending_exception := pending_exception w; registry := registry w; vp := f (vp w) |}.

(** ** Computations *)

Inductive outcome (A : Type) :=
| Normal (a : A) (w : World)
| Thrown (e : exception) (w : World)
| Undefined.

Arguments Normal {A} a w.
Arguments Thrown {A} e w.
Arguments Undefined {A}.

Definition M (A : Type) : Type := World -> outcome A.

Definition ret {A} (a : A) : M A := fun w => Normal a w.

Definition bind {A B} (c : M A) (k : A -> M B) : M B :=
  fun w =>
    match c w with
    | Normal a w' => k a w'
    | Thrown e w' => Thrown e w'
    | Undefined => Undefined
    end.

Definition throw {A} (e : exception) : M A := fun w => Thrown e w.

Definition undefined {A} : M A := fun _ => Undefined.

(** [try { body } catch (...) { handler }] *)
Definition try_catch {A} (body : M A) (handler : exception -> M A) : M A :=
  fun w =>
    match body w with
    | Normal a w' => Normal a w'
    | Thrown e w' => handler e w'
    | Undefined => Undefined
    end.

Definition modify (f : World -> World) : M unit := fun w => Normal tt (f w).

Definition reads {A} (f : World -> A) : M A := fun w => Normal (f w) w.

Notation "'let!' x ':=' c 'in' k" := (bind c (fun x => k))
  (at level 10, x pattern, c at level 100, k at level 200).

Notation "c '>>' k" := (bind c (fun _ => k))
  (at level 199, right associativity).

(** ** The [JS::Value] and [JS::CallArgs] interface *)

Definition isObject (v : Value) : bool :=
  match v with ObjectValue _ => true | _ => false end.

(** [toObjectOrNull] is only defined on objects and on null. *)
Definition toObjectOrNull (v : Value) : M (option positive) :=
  match v with
  | ObjectValue o => ret (Some o)
  | NullValue => ret None
  | _ => undefined
  end.

(** [Value::toString] is only defined on string values. *)
Definition Value_toString (v : Value) : M string :=
  match v with
  | StringValue s => ret s
  | _ => undefined
  end.

Definition ObjectOrNullValue (o : option positive) : Value :=
  match o with Some a => ObjectValue a | None => NullValue end.

(** [JS::CallArgsFromVp(argc, vp)]: a view of the argument vector.  Slot 0
    is the callee on entry and the return slot afterwards, slot 1 is the
    receiver and the arguments start at slot 2; the runtime always hands a
    callback at least two slots. *)
Record CallArgs := CallArgsFromVp { argc : nat }.

Definition receiver (w : World) : Value := default UndefinedValue (vp w !! 1%nat).

Definition thisv (args : CallArgs) : M Value := reads receiver.

Definition get (args : CallArgs) (i : nat) : M Value :=
  reads (fun w => if (i <? argc args)%nat
                  then default UndefinedValue (vp w !! (2 + i)%nat)
                  else UndefinedValue).

Definition rval_set (args : CallArgs) (v : Value) : M unit :=
  modify (set_vp (fun l => <[0%nat := v]> l)).

Definition rval (w : World) : Value := default UndefinedValue (vp w !! 0%nat).

(** ** Runtime primitives used by the adapters *)

(** [JS_NewObject(cx, clasp, proto)]: a new object of the class, with a null
    private slot. *)
Definition JS_NewObject (c : positive) (p : option positive) : M (option positive) :=
  fun w =>
    let o := fresh (dom (objects w)) in
    Normal (Some o)
      (set_objects (fun h => <[o := {| clasp := c; proto := p; private := None |}]> h) w).

Definition class_of (w : World) (o : positive) : option JSClass :=
  match objects w !! o with
  | Some ob => classes w !! clasp ob
  | None => None
  end.

(** [JS_GetPrivate(obj)]: reads the private slot; defined only on a live
    object whose class reserves one. *)
Definition JS_GetPrivate (obj : option positive) : M (option positive) :=
  fun w =>
    match obj with
    | None => Undefined
    | Some o =>
        match objects w !! o, class_of w o with
        | Some ob, Some c => if has_private c then Normal (private ob) w else Undefined
        | _, _ => Undefined
        end
    end.

(** [JS_SetPrivate(obj, data)]: stores the pointer, whatever the slot held. *)
Definition JS_SetPrivate (obj : option positive) (data : option positive) : M unit :=
  fun w =>
    match obj with
    | None => Undefined
    | Some o =>
        match objects w !! o, class_of w o with
        | Some ob, Some c =>
            if has_private c
            then Normal tt
                   (set_objects
                      (fun h => <[o := {| clasp := clasp ob; proto := proto ob;
                                          private := data |}]> h) w)
            else Undefined
        | _, _ => Undefined
        end
    end.

(** [JS_InstanceOf(cx, obj, clasp, nullptr)]: class identity, by address. *)
Definition JS_InstanceOf (obj : option positive) (c : positive) : M bool :=
  fun w =>
    match obj with
    | None => Normal false w
    | Some o =>
        match objects w !! o with
        | Some ob => Normal (bool_decide (clasp ob = c)) w
        | None => Undefined
        end
    end.

(** [JS_InitClass]: creates the prototype object of the class, itself an
    object of that class whose private slot is null, and returns it.  The
    constructor and method properties it defines are reached here through
    the calling convention only. *)
Definition JS_InitClass (global : positive) (parent_proto : option positive)
    (c : positive) : M (option positive) :=
  JS_NewObject c parent_proto.

(** ** The C++ free store *)

(** [std::make_unique<MyType>(...)] followed by [release()]; running out of
    memory is left out. *)
Definition new_MyType (m : MyType) : M positive :=
  fun w =>
    let p := fresh (dom (free_store w)) in
    Normal p (set_free_store (fun h => <[p := m]> h) w).

(** [delete ptr] on a non-null pointer: defined only on a live allocation. *)
Definition delete_MyType (p : positive) : M unit :=
  fun w =>
    match free_store w !! p with
    | Some _ => Normal tt (set_free_store (fun h => delete p h) w)
    | None => Undefined
    end.

(** [ptr->val] *)
Definition deref (p : option positive) : M MyType :=
  fun w =>
    match p with
    | Some a =>
        match free_store w !! a with
        | Some m => Normal m w
        | None => Undefined
        end
    | None => Undefined
    end.

(** ** The C library on strings *)

Section Strings.

(** [isspace] and [isdigit] in the "C" locale. *)
Definition isspace (c : ascii) : bool :=
  let n := Z.of_nat (nat_of_ascii c) in
  (n =? 32) || ((9 <=? n) && (n <=? 13)).

Definition isdigit (c : ascii) : bool :=
  let n := Z.of_nat (nat_of_ascii c) in
  (48 <=? n) && (n <=? 57).

Definition digit_value (c : ascii) : Z := Z.of_nat (nat_of_ascii c) - 48.

Definition digit_char (d : Z) : ascii := ascii_of_nat (Z.to_nat (48 + d)).

Fixpoint skip_space (s : list ascii) : list ascii :=
  match s with
  | c :: s' => if isspace c then skip_space s' else s
  | [] => []
  end.

(** The digit loop of [strtoll] in base ten: it stops at the first character
    that is not a digit, the terminating NUL included. *)
Fixpoint accumulate (acc : Z) (s : list ascii) : Z :=
  match s with
  | c :: s' => if isdigit c then accumulate (acc * 10 + digit_value c) s' else acc
  | [] => acc
  end.

(** The mathematical value [strtoll(s, nullptr, 10)] reads: white space, an
    optional sign, then digits; 0 when there is no digit to convert. *)
Definition strtoll_value (s : list ascii) : Z :=
  match skip_space s with
  | "-"%char :: s' => - accumulate 0 s'
  | "+"%char :: s' => accumulate 0 s'
  | s' => accumulate 0 s'
  end.

(** [std::atoll]: the value read when [long long] can represent it; the
    standard leaves the other case undefined. *)
Definition atoll (s : string) : option Z :=
  let v := strtoll_value (list_ascii_of_string s) in
  if in_int64 v then Some v else None.

(** Digits of a non-negative number, least significant first, pushed in
    front of [acc].  Twenty rounds cover every 64-bit magnitude. *)
Fixpoint utoa (fuel : nat) (n : Z) (acc : list ascii) : list ascii :=
  match fuel with
  | O => acc
  | S f =>
      let acc' := digit_char (n mod 10) :: acc in
      if n / 10 =? 0 then acc' else utoa f (n / 10) acc'
  end.

Definition to_chars (v : Z) : list ascii :=
  if v <? 0 then "-"%char :: utoa 20 (- v) [] else utoa 20 v [].

(** [std::to_string(long long)] *)
Definition to_string (v : Z) : string := string_of_list_ascii (to_chars v).

(** The decimal spelling [std::to_string] produces: digits only, no leading
    zero unless the number is zero, and a minus sign only before a non-zero
    number. *)
Definition canonical_digits (s : list ascii) : bool :=
  match s with
  | [] => false
  | "0"%char :: r => match r with [] => true | _ => false end
  | _ => forallb isdigit s
  end.

Definition canonical_chars (s : list ascii) : bool :=
  match s with
  | "-"%char :: r => match r with "0"%char :: _ => false | _ => canonical_digits r end
  | _ => canonical_digits s
  end.

Definition canonical_int64 (s : string) : bool :=
  canonical_chars (list_ascii_of_string s)
  && in_int64 (strtoll_value (list_ascii_of_string s)).

End Strings.

(** [static_cast<double>(int64_t)]: round to nearest, ties to even, in
    binary64. *)
Definition int64_to_double (v : Z) : spec_float :=
  binary_normalize 53 1024 v 0 false.

(** [JS_NewStringCopyZ(cx, str.c_str())] copies the bytes before the first
    NUL. *)
Fixpoint JS_NewStringCopyZ (s : string) : string :=
  match s with
  | String c r => if Ascii.eqb c zero then EmptyString else String c (JS_NewStringCopyZ r)
  | EmptyString => EmptyString
  end.

(** ** The per-context registry *)

(** [fromContext(cx)]: the adapter the context holds for a type.  The source
    elides its body; the context keeps the adapters by class name. *)
Definition fromContext (T : string) : M Adapter :=
  fun w =>
    match registry w !! T with
    | Some a => Normal a w
    | None => Undefined
    end.

(** Modelled from the spec: the bookkeeping that makes a context hold an
    adapter is elided in the source together with [fromContext]; the spec
    has the installer record itself in the context registry under its type
    name. *)
Definition record_adapter (T : string) (self : Adapter) : M unit :=
  modify (set_registry (fun r => <[T := self]> r)).

(** ** The hand-written adapter *)

Module AdaptedMyType.

Definition className : string := "MyType".

(** The constructor: a member-initialiser list and an empty body.  It builds
    [_jsclass] at the address of the new adapter's member, lets
    [JS_InitClass] create the prototype and pins it in [_proto].  It does
    not touch the context's registry. *)
Definition constructor (global : positive) : M Adapter :=
  fun w =>
    let c := fresh (dom (classes w)) in
    let _jsclass_ := {| class_name := className; class_flags := JSCLASS_HAS_PRIVATE |} in
    (let! p := JS_InitClass global None c in
     ret {| _jsclass := c; _proto := p |})
      (set_classes (fun t => <[c := _jsclass_]> t) w).

Definition newObject (self : Adapter) : M (option positive) :=
  JS_NewObject (_jsclass self) (_proto self).

Definition instanceOf (self : Adapter) (object : option positive) : M bool :=
  JS_InstanceOf object (_jsclass self).

Definition finalize (obj : option positive) : M unit :=
  let! ptr := JS_GetPrivate obj in
  match ptr with
  | Some p => delete_MyType p
  | None => ret tt
  end.

(** [construct]: the form is [MyType("12345")].  Runtime strings are kept
    here as the byte strings [JSAutoByteString] hands to C, so the encoding
    step is the identity. *)
Definition construct (argc : nat) : M bool :=
  let args := CallArgsFromVp argc in
  let! a0 := get args 0 in
  let! str := Value_toString a0 in
  let bstr := str in
  match atoll bstr with
  | None => undefined
  | Some v =>
      let! myType := new_MyType {| val := v |} in
      let! self := fromContext className in
      let! out := newObject self in
      JS_SetPrivate out (Some myType) >>
      rval_set args (ObjectOrNullValue out) >>
      ret true
  end.

Definition toNumber (argc : nat) : M bool :=
  let args := CallArgsFromVp argc in
  let! t := thisv args in
  let! o := toObjectOrNull t in
  let! ptr := JS_GetPrivate o in
  let! m := deref ptr in
  rval_set args (NumberValue (int64_to_double (val m))) >>
  ret true.

Definition toString (argc : nat) : M bool :=
  let args := CallArgsFromVp argc in
  let! t := thisv args in
  let! o := toObjectOrNull t in
  let! ptr := JS_GetPrivate o in
  let! m := deref ptr in
  let str := to_string (val m) in
  let rstr := JS_NewStringCopyZ str in
  rval_set args (StringValue rstr) >>
  ret true.

End AdaptedMyType.

(** ** Callbacks as types *)

(** [struct Callback { static const char* name(); static void call(cx, args); }] *)
Record Callback := { name : string; call : CallArgs -> M unit }.

(** The three receiver failures of a constrained method, as thrown. *)
Definition NotAnObject (T : Callback) : exception :=
  runtime_error (name T +:+ " can only be called on objects").

Definition WrongType (T : Callback) : exception :=
  runtime_error (name T +:+ " can only be called on objects of the correct type").

Definition CalledOnPrototype (T : Callback) : exception :=
  runtime_error (name T +:+ " cannot be called on the prototype").

(** [enum class InstallType : char] *)
Inductive InstallType := Global | Private | OverNative.

Definition InstallType_value (t : InstallType) : Z :=
  match t with Global => 0 | Private => 1 | OverNative => 2 end.

(** Modelled from the spec: the tuple helper [instanceOf<Args...>(cx, value)]
    is declared without a body.  It answers, for the types [Args] resolved
    through the context, whether the value is an instance of one of them
    and whether it is the prototype of the type it matched. *)
Fixpoint instanceOf (Args : list string) (value : Value) : M (bool * bool) :=
  match Args with
  | [] => ret (false, false)
  | T :: rest =>
      let! self := fromContext T in
      let! obj := toObjectOrNull value in
      let! correctType := JS_InstanceOf obj (_jsclass self) in
      if correctType
      then ret (true, bool_decide (_proto self = obj))
      else instanceOf rest value
  end.

Section Adapters.

(** [void cppToJSException(JSContext* cx)]: declared only.  It encodes the
    exception in flight as the context's JavaScript exception. *)
Variable cppToJSException : exception -> World -> World.

(** The [catch (...)] clause every adapter ends with. *)
Definition report (e : exception) : M bool :=
  modify (cppToJSException e) >> ret false.

(** The hardened [toNumber]. *)
Definition toNumber (argc : nat) : M bool :=
  try_catch
    (let args := CallArgsFromVp argc in
     let! t := thisv args in
     if negb (isObject t)
     then throw (runtime_error "MyType::toNumber can only be called on objects")
     else
       let! obj := toObjectOrNull t in
       let! self := fromContext AdaptedMyType.className in
       let! ok := AdaptedMyType.instanceOf self obj in
       if negb ok
       then throw (runtime_error
                     "MyType::toNumber can only be called on objects of type MyType")
       else
         let! self' := fromContext AdaptedMyType.className in
         if bool_decide (_proto self' = obj)
         then throw (runtime_error
                       "MyType::toNumber can't be called on the prototype")
         else
           let! t' := thisv args in
           let! o := toObjectOrNull t' in
           let! ptr := JS_GetPrivate o in
           let! m := deref ptr in
           rval_set args (NumberValue (int64_to_double (val m))) >>
           ret true)
    report.

Definition wrapFunction (T : Callback) (argc : nat) : M bool :=
  try_catch
    (let args := CallArgsFromVp argc in
     call T args >>
     ret true)
    report.

(** [wrapConstrainedMethod<T, noProto, Args...>]; [instanceOf_Args] stands
    for the instantiation [instanceOf<Args...>]. *)
Definition wrapConstrainedMethod (T : Callback) (noProto : bool)
    (instanceOf_Args : Value -> M (bool * bool)) (argc : nat) : M bool :=
  try_catch
    (let args := CallArgsFromVp argc in
     let! t := thisv args in
     if negb (isObject t)
     then throw (NotAnObject T)
     else
       let! (correctType, isProto) := instanceOf_Args t in
       if negb correctType
       then throw (WrongType T)
       else
         if noProto && isProto
         then throw (CalledOnPrototype T)
         else
           call T args >>
           ret true)
    report.

End Adapters.

(** ** The generic installer *)

Module WrapType.

(** Modelled from the spec: [WrapType<T>::newObject] is declared in the class
    template and defined nowhere.  It creates a runtime object of the
    registered class with an empty private slot, without running any
    constructor logic. *)
Definition newObject (self : Adapter) : M (option positive) :=
  JS_NewObject (_jsclass self) (_proto self).

(** Modelled from the spec: discarding a partially built object takes it out
    of the heap script can observe. *)
Definition discard (out : option positive) : M unit :=
  modify (set_objects (fun h => match out with Some o => delete o h | None => h end)).

(** Modelled from the spec: [WrapType<T>::newInstance] is declared in the
    class template and defined nowhere.  It creates the object as
    [newObject] does, then invokes the descriptor's construct hook with the
    arguments to populate the private slot; if construction fails, the
    partially built object is discarded and the failure is propagated. *)
Definition newInstance (self : Adapter)
    (construct : option positive -> list Value -> M unit)
    (args : list Value) : M (option positive) :=
  let! out := newObject self in
  try_catch
    (construct out args >> ret out)
    (fun e => discard out >> throw e).

End WrapType.

(** ** How the runtime enters a native *)

(** The runtime lays out the argument vector, calls the native with the
    number of arguments, and on success takes the call's value from slot 0;
    a native that returns [false] has left its error in the context. *)
Definition JS_CallNative (native : nat -> M bool) (callee this : Value)
    (args : list Value) : M (option Value) :=
  fun w =>
    match native (length args) (set_vp (fun _ => callee :: this :: args) w) with
    | Normal true w' => Normal (Some (rval w')) w'
    | Normal false w' => Normal None w'
    | Thrown e w' => Thrown e w'
    | Undefined => Undefined
    end.

(** ** Installation invariants *)

(** The context holds the adapter of [MyType] and its class reserves the
    private slot. *)
Definition MyType_installed (w : World) : bool :=
  match registry w !! AdaptedMyType.className with
  | Some a =>
      match classes w !! _jsclass a with
      | Some c => has_private c
      | None => false
      end
  | None => false
  end.

(** Type [U] is installed with adapter [a]: its prototype [p] is a live
    object of the adapter's class. *)
Definition installed (w : World) (U : string) (a : Adapter) (p : positive) : Prop :=
  registry w !! U = Some a /\ _proto a = Some p /\
  exists ob, objects w !! p = Some ob /\ clasp ob = _jsclass a.

Definition all_registered (w : World) (Args : list string) : bool :=
  forallb (fun T => bool_decide (is_Some (registry w !! T))) Args.

(** Every adapter owns its [JSClass]: two installed types never share a class
    address. *)
Definition classes_distinct (w : World) : Prop :=
  forall T1 T2 a1 a2,
    registry w !! T1 = Some a1 -> registry w !! T2 = Some a2 ->
    _jsclass a1 = _jsclass a2 -> T1 = T2.

(** After white space and an optional sign, no digit follows: [atoll] has
    nothing to convert. *)
Definition no_conversion (s : string) : bool :=
  match skip_space (list_ascii_of_string s) with
  | c :: r =>
      if (Ascii.eqb c "-" || Ascii.eqb c "+")%char
      then match r with d :: _ => negb (isdigit d) | [] => true end
      else negb (isdigit c)
  | [] => true
  end.

(** ** Sample worlds *)

Definition empty_world : World :=
  {| classes := ∅; objects := ∅; free_store := ∅; pending_exception := None;
     registry := ∅; vp := [] |}.

Definition world_of {A} (o : outcome A) : World :=
  match o with
  | Normal _ w => w
  | Thrown _ w => w
  | Undefined => empty_world
  end.

(** A context in which [MyType] has been installed: the adapter has been
    constructed and the context holds it. *)
Definition installed_world : World :=
  world_of ((let! self := AdaptedMyType.constructor 1%positive in
             record_adapter AdaptedMyType.className self) empty_world).

(** A Lippincott function that stores the message as the pending exception. *)
Definition lippincott (e : exception) (w : World) : World :=
  set_pending_exception
    (Some (StringValue match e with runtime_error m => m | other_exception t => t end)) w.

(** A callback whose body leaves a mark in the return slot. *)
Definition marking_callback : Callback :=
  {| name := "mark";
     call := fun args => rval_set args (BooleanValue true) |}.

(** A callback whose body throws something that is not a [std::exception]. *)
Definition throwing_callback : Callback :=
  {| name := "boom";
     call := fun args => throw (other_exception "int") |}.

(** ** Statements about strings and slots *)

(** Digit strings that do not start with a zero. *)
Definition nonzero_led (ds : list ascii) : Prop :=
  forallb isdigit ds = true /\ exists c r, ds = c :: r /\ c <> "0"%char.

(** A decimal string that denotes a 64-bit signed integer: an optional minus
    sign and at least one digit, with a value [long long] can hold. *)
Definition decimal_int64 (s : string) : bool :=
  let l := list_ascii_of_string s in
  let ds := match l with "-"%char :: r => r | _ => l end in
  negb (Nat.eqb (length ds) 0) && forallb isdigit ds && in_int64 (strtoll_value l).

(** Constructing from [s] and asking the new object for its string gives
    [s] back. *)
Definition roundtrip_holds (w : World) (s : string) : Prop :=
  exists o w1 w2,
    JS_CallNative AdaptedMyType.construct UndefinedValue UndefinedValue
      [StringValue s] w = Normal (Some (ObjectValue o)) w1
    /\ JS_CallNative AdaptedMyType.toString UndefinedValue (ObjectValue o) [] w1
       = Normal (Some (StringValue s)) w2.

(** The context after [new MyType("5")]. *)
Definition world_with_five : World :=
  world_of (JS_CallNative AdaptedMyType.construct UndefinedValue UndefinedValue
              [StringValue "5"] installed_world).

(** The argument vector of a call with the given receiver. *)
Definition call_frame (this : Value) (args : list Value) (w : World) : World :=
  set_vp (fun _ => UndefinedValue :: this :: args) w.

(** A context with a second installed type, [Other], whose class reserves no
    private slot; its prototype is object 3. *)
Definition two_type_world : World :=
  set_registry (fun r => <["Other" := {| _jsclass := 2; _proto := Some 3%positive |}]> r)
    (set_objects (fun h => <[3%positive := {| clasp := 2; proto := None; private := None |}]> h)
       (set_classes (fun t => <[2%positive := {| class_name := "Other"; class_flags := 0 |}]> t)
          world_with_five)).

(** Four calls on [two_type_world]: on a string, on an object of type
    [Other], on the prototype of [MyType] and on an instance of [MyType]. *)
Definition string_frame : World := call_frame (StringValue "x") [] two_type_world.
Definition other_frame : World := call_frame (ObjectValue 3) [] two_type_world.
Definition proto_frame : World := call_frame (ObjectValue 1) [] two_type_world.
Definition instance_frame : World := call_frame (ObjectValue 2) [] two_type_world.

(** The marking callback bound as a method of [MyType]. *)
Definition marking_method (noProto : bool) : M bool :=
  wrapConstrainedMethod lippincott marking_callback noProto (instanceOf ["MyType"]) 0.

(** ** The policy-based binding of [MyType] *)

Module AdaptedMyTypeInfo.

Definition className : string := "MyType".

Definition classFlags : Z := JSCLASS_HAS_PRIVATE.

(** [DECLARE_JS_FUNCTION(function)]: a callback type whose [name()] is the
    identifier itself.  The source elides the bodies of [call], which are
    therefore arguments here. *)
Definition DECLARE_JS_FUNCTION (function : string) (body : CallArgs -> M unit) : Callback :=
  {| name := function; call := body |}.

(** [ATTACH_JS_CONSTRAINED_METHOD_NO_PROTO(name, ...)]: the method-table entry
    that binds [Functions::name] under its own name, with the prototype
    excluded and the listed types allowed. *)
Definition ATTACH_JS_CONSTRAINED_METHOD_NO_PROTO
    (cppToJSException : exception -> World -> World)
    (T : Callback) (Args : list string) : string * (nat -> M bool) :=
  (name T, wrapConstrainedMethod cppToJSException T true (instanceOf Args)).

(** [const JSFunctionSpec AdaptedMyTypeInfo::methods[3]], without the
    terminating [JS_FS_END]. *)
Definition methods (cppToJSException : exception -> World -> World)
    (toNumber_call toString_call : CallArgs -> M unit)
  : list (string * (nat -> M bool)) :=
  [ ATTACH_JS_CONSTRAINED_METHOD_NO_PROTO cppToJSException
      (DECLARE_JS_FUNCTION "toNumber" toNumber_call) [className];
    ATTACH_JS_CONSTRAINED_METHOD_NO_PROTO cppToJSException
      (DECLARE_JS_FUNCTION "toString" toString_call) [className] ].

End AdaptedMyTypeInfo.

(** ** Ownership of payloads *)

(** Every payload pointer stored in a private slot is a live allocation, and
    no two objects store the same pointer. *)
Definition owned (w : World) : Prop :=
  forall o ob p,
    objects w !! o = Some ob -> private ob = Some p ->
    is_Some (free_store w !! p)
    /\ forall o' ob', objects w !! o' = Some ob' -> private ob' = Some p -> o' = o.

(** A receiver of [MyType] that holds a live payload [m]. *)
Definition holds (w : World) (o : positive) (m : MyType) : Prop :=
  exists ob c p,
    objects w !! o = Some ob /\ classes w !! clasp ob = Some c
    /\ has_private c = true /\ private ob = Some p /\ free_store w !! p = Some m.

(** White space, then a run of digits, then text that does not go on with a
    digit. *)
Definition digits_then_text (ws ds text : list ascii) : bool :=
  forallb isspace ws && negb (Nat.eqb (length ds) 0) && forallb isdigit ds
  && match text with c :: _ => negb (isdigit c) | [] => true end.

(** The context after [new MyType("5")] and [new MyType("7")]: objects 2 and
    3 hold payloads 1 and 2. *)
Definition two_instance_world : World :=
  world_of (JS_CallNative AdaptedMyType.construct UndefinedValue UndefinedValue
              [StringValue "7"] world_with_five).

(** The [toString] entry of the method table, with a body that marks the
    return slot. *)
Definition toString_entry : string * (nat -> M bool) :=
  AdaptedMyTypeInfo.ATTACH_JS_CONSTRAINED_METHOD_NO_PROTO lippincott
    (AdaptedMyTypeInfo.DECLARE_JS_FUNCTION "toString" (call marking_callback))
    ["MyType"].



(** * Properties *)

(** ** The call adapters *)

Section AdapterProperties.

Variable cppToJSException : exception -> World -> World.

Lemma report_eq e w :
  report cppToJSException e w = Normal false (cppToJSException e w).
Proof. reflexivity. Qed.

(** An adapter never lets a C++ exception out, whatever runs inside the
    [try] block. *)
Lemma try_report_not_thrown (body : M bool) w e w' :
  try_catch body (report cppToJSException) w <> Thrown e w'.
Proof.
  unfold try_catch. destruct (body w); rewrite ?report_eq; discriminate.
Qed.

(** C2: [wrapFunction] catches whatever the wrapped body throws, hands it to
    [cppToJSException] and returns [false]; when the body completes, the
    adapter returns [true] in the world the body left, return slot included;
    and neither [wrapFunction] nor [wrapConstrainedMethod] ever lets an
    exception past its [catch (...)]. *)
Theorem wrapFunction_catches_all (T : Callback) (argc : nat) (w : World) :
  (forall e w', call T (CallArgsFromVp argc) w = Thrown e w' ->
     wrapFunction cppToJSException T argc w = Normal false (cppToJSException e w'))
  /\ (forall u w', call T (CallArgsFromVp argc) w = Normal u w' ->
     wrapFunction cppToJSException T argc w = Normal true w'
     /\ rval (world_of (wrapFunction cppToJSException T argc w)) = rval w')
  /\ (forall e w', wrapFunction cppToJSException T argc w <> Thrown e w')
  /\ (forall noProto inst e w',
        wrapConstrainedMethod cppToJSException T noProto inst argc w <> Thrown e w').
Proof.
  split; [|split; [|split]].
  - intros e w' H. unfold wrapFunction, try_catch, bind. now rewrite H.
  - intros u w' H. unfold wrapFunction, try_catch, bind, ret.
    rewrite H. simpl. split; reflexivity.
  - intros e w'. apply try_report_not_thrown.
  - intros noProto inst e w'. apply try_report_not_thrown.
Qed.

(** The four ways through [wrapConstrainedMethod], one lemma each. *)

Lemma constrained_not_object T noProto inst argc w :
  isObject (receiver w) = false ->
  wrapConstrainedMethod cppToJSException T noProto inst argc w
  = Normal false (cppToJSException (NotAnObject T) w).
Proof.
  intros H. unfold wrapConstrainedMethod, try_catch, bind, thisv, reads.
  now rewrite H.
Qed.

Lemma constrained_wrong_type T noProto inst argc w isProto w1 :
  isObject (receiver w) = true ->
  inst (receiver w) w = Normal (false, isProto) w1 ->
  wrapConstrainedMethod cppToJSException T noProto inst argc w
  = Normal false (cppToJSException (WrongType T) w1).
Proof.
  intros H H1. unfold wrapConstrainedMethod, try_catch, bind, thisv, reads.
  rewrite H. cbv beta iota delta [negb]. now rewrite H1.
Qed.

Lemma constrained_on_prototype T inst argc w w1 :
  isObject (receiver w) = true ->
  inst (receiver w) w = Normal (true, true) w1 ->
  wrapConstrainedMethod cppToJSException T true inst argc w
  = Normal false (cppToJSException (CalledOnPrototype T) w1).
Proof.
  intros H H1. unfold wrapConstrainedMethod, try_catch, bind, thisv, reads.
  rewrite H. cbv beta iota delta [negb]. now rewrite H1.
Qed.

Lemma constrained_runs_body T noProto inst argc w isProto w1 :
  isObject (receiver w) = true ->
  inst (receiver w) w = Normal (true, isProto) w1 ->
  noProto && isProto = false ->
  wrapConstrainedMethod cppToJSException T noProto inst argc w
  = try_catch (call T (CallArgsFromVp argc) >> ret true)
      (report cppToJSException) w1.
Proof.
  intros H H1 H2. unfold wrapConstrainedMethod, try_catch, bind, thisv, reads.
  rewrite H. cbv beta iota delta [negb]. rewrite H1.
  cbv beta iota delta [negb]. now rewrite H2.
Qed.

(** C1: the receiver checks of [wrapConstrainedMethod] run in the order
    object-ness, type membership, prototype exclusion.  A receiver that is
    not an object is rejected without consulting the type check or the
    body; a receiver of the wrong type is rejected in the world the type
    check left, whatever the prototype flag says; the prototype is rejected
    when [noProto] is set; in each case the outcome is the same for every
    body.  Only a receiver that passed all three reaches the body. *)
Theorem wrapConstrainedMethod_check_order (T : Callback) (noProto : bool)
    (inst : Value -> M (bool * bool)) (argc : nat) (w : World) :
  (isObject (receiver w) = false ->
     forall (T' : Callback) (inst' : Value -> M (bool * bool)),
       name T' = name T ->
       wrapConstrainedMethod cppToJSException T' noProto inst' argc w
       = Normal false (cppToJSException (NotAnObject T) w))
  /\ (isObject (receiver w) = true ->
      forall isProto w1, inst (receiver w) w = Normal (false, isProto) w1 ->
      forall T' : Callback, name T' = name T ->
        wrapConstrainedMethod cppToJSException T' noProto inst argc w
        = Normal false (cppToJSException (WrongType T) w1))
  /\ (isObject (receiver w) = true ->
      forall w1, inst (receiver w) w = Normal (true, true) w1 ->
      noProto = true ->
      forall T' : Callback, name T' = name T ->
        wrapConstrainedMethod cppToJSException T' noProto inst argc w
        = Normal false (cppToJSException (CalledOnPrototype T) w1))
  /\ (isObject (receiver w) = true ->
      forall isProto w1, inst (receiver w) w = Normal (true, isProto) w1 ->
      noProto && isProto = false ->
      wrapConstrainedMethod cppToJSException T noProto inst argc w
      = try_catch (call T (CallArgsFromVp argc) >> ret true)
          (report cppToJSException) w1).
Proof.
  repeat split.
  - intros H T' inst' Hn.
    rewrite (constrained_not_object T' noProto inst' argc w H).
    unfold NotAnObject. now rewrite Hn.
  - intros H isProto w1 H1 T' Hn.
    rewrite (constrained_wrong_type T' noProto inst argc w isProto w1 H H1).
    unfold WrongType. now rewrite Hn.
  - intros H w1 H1 -> T' Hn.
    rewrite (constrained_on_prototype T' inst argc w w1 H H1).
    unfold CalledOnPrototype. now rewrite Hn.
  - intros H isProto w1 H1 H2. now apply constrained_runs_body with isProto.
Qed.

(** C10: with the prototype flag off, a receiver that is an object of an
    allowed type reaches the body even when it is the matched type's
    prototype: the adapter's outcome is that of the guarded body. *)
Theorem wrapConstrainedMethod_proto_allowed (T : Callback)
    (inst : Value -> M (bool * bool)) (argc : nat) (w w1 : World) :
  isObject (receiver w) = true ->
  inst (receiver w) w = Normal (true, true) w1 ->
  wrapConstrainedMethod cppToJSException T false inst argc w
  = match call T (CallArgsFromVp argc) w1 with
    | Normal _ w2 => Normal true w2
    | Thrown e w2 => Normal false (cppToJSException e w2)
    | Undefined => Undefined
    end.
Proof.
  intros H H1.
  rewrite (constrained_runs_body T false inst argc w true w1 H H1 eq_refl).
  unfold try_catch, bind, ret.
  destruct (call T (CallArgsFromVp argc) w1); reflexivity.
Qed.

End AdapterProperties.

(** ** Receivers against the installed types *)

Lemma all_registered_cons w T Args :
  all_registered w (T :: Args) = true ->
  (exists a, registry w !! T = Some a) /\ all_registered w Args = true.
Proof.
  unfold all_registered. simpl. intros H.
  apply andb_true_iff in H as [H1 H2]. split; [|exact H2].
  apply bool_decide_eq_true in H1. destruct H1 as [a Ha]. now exists a.
Qed.

(** An object whose class belongs to none of [Args] is an instance of none. *)
Lemma instanceOf_foreign Args w o ob :
  objects w !! o = Some ob ->
  all_registered w Args = true ->
  (forall T a, In T Args -> registry w !! T = Some a -> _jsclass a <> clasp ob) ->
  instanceOf Args (ObjectValue o) w = Normal (false, false) w.
Proof.
  intros Ho. induction Args as [|T Args IH]; intros Hreg Hne.
  - reflexivity.
  - apply all_registered_cons in Hreg as [[a Ha] Hreg].
    simpl. unfold bind, fromContext. rewrite Ha. simpl. rewrite Ho.
    rewrite bool_decide_eq_false_2.
    + apply IH; [exact Hreg|]. intros T' a' Hin. apply Hne. now right.
    + intros Hc. apply (Hne T a); [now left|exact Ha|now symmetry].
Qed.

(** The prototype of an installed type in [Args] is matched, and recognised
    as the prototype of the type it matched. *)
Lemma instanceOf_prototype Args w U a p :
  classes_distinct w ->
  all_registered w Args = true ->
  In U Args ->
  installed w U a p ->
  instanceOf Args (ObjectValue p) w = Normal (true, true) w.
Proof.
  intros Hd Hreg Hin (Ha & Hp & ob & Ho & Hc).
  induction Args as [|T Args IH]; [destruct Hin|].
  apply all_registered_cons in Hreg as [[a' Ha'] Hreg].
  simpl. unfold bind, fromContext. rewrite Ha'. simpl. rewrite Ho.
  destruct (bool_decide (clasp ob = _jsclass a')) eqn:E.
  - apply bool_decide_eq_true in E.
    assert (T = U) as -> by (apply (Hd T U a' a); congruence).
    assert (a' = a) as -> by congruence.
    unfold ret. now rewrite Hp, bool_decide_eq_true_2.
  - destruct Hin as [->|Hin].
    + apply bool_decide_eq_false in E. exfalso. apply E. congruence.
    + now apply IH.
Qed.

(** C4: a constrained method whose receiver is an object of an installed
    type outside the allowed set [Args] fails with [WrongType]; one whose
    receiver is not an object fails with [NotAnObject].  Either way the
    adapter returns [false] in the entry world with only the error
    recorded, so no effect of the body has taken place. *)
Theorem constrained_rejects_foreign_receivers
    (cppToJSException : exception -> World -> World)
    (T : Callback) (noProto : bool) (Args : list string) (argc : nat) (w : World) :
  (forall o ob U b,
      classes_distinct w ->
      all_registered w Args = true ->
      receiver w = ObjectValue o ->
      objects w !! o = Some ob ->
      registry w !! U = Some b ->
      clasp ob = _jsclass b ->
      ~ In U Args ->
      wrapConstrainedMethod cppToJSException T noProto (instanceOf Args) argc w
      = Normal false (cppToJSException (WrongType T) w))
  /\ (isObject (receiver w) = false ->
      wrapConstrainedMethod cppToJSException T noProto (instanceOf Args) argc w
      = Normal false (cppToJSException (NotAnObject T) w)).
Proof.
  split.
  - intros o ob U b Hd Hreg Hr Ho Hb Hc Hnin.
    apply constrained_wrong_type with (isProto := false).
    + now rewrite Hr.
    + rewrite Hr. apply instanceOf_foreign with ob; [exact Ho|exact Hreg|].
      intros T' a Hin Ha Heq. apply Hnin.
      assert (T' = U) as <- by (apply (Hd T' U a b); congruence).
      exact Hin.
  - apply constrained_not_object.
Qed.

(** C3: for the prototype [p] of an installed type [U], the adapter's
    [instanceOf] answers true, the tuple helper reports both "instance" and
    "prototype", and every method constrained to types including [U] with
    [noProto] set fails with [CalledOnPrototype]; it returns [false] in the
    entry world with only the error recorded, so the body was never
    entered. *)
Theorem prototype_receiver_rejected
    (cppToJSException : exception -> World -> World)
    (T : Callback) (Args : list string) (argc : nat) (w : World)
    (U : string) (a : Adapter) (p : positive) :
  installed w U a p ->
  classes_distinct w ->
  all_registered w Args = true ->
  In U Args ->
  receiver w = ObjectValue p ->
  AdaptedMyType.instanceOf a (Some p) w = Normal true w
  /\ instanceOf [U] (ObjectValue p) w = Normal (true, true) w
  /\ wrapConstrainedMethod cppToJSException T true (instanceOf Args) argc w
     = Normal false (cppToJSException (CalledOnPrototype T) w).
Proof.
  intros Hi Hd Hreg Hin Hr. split; [|split].
  - destruct Hi as (_ & _ & ob & Ho & Hc).
    unfold AdaptedMyType.instanceOf, JS_InstanceOf. rewrite Ho.
    now rewrite bool_decide_eq_true_2.
  - apply instanceOf_prototype with U a; try assumption.
    + unfold all_registered. simpl. destruct Hi as (Ha & _).
      rewrite Ha. rewrite bool_decide_eq_true_2; [reflexivity|eauto].
    + now left.
  - apply constrained_on_prototype.
    + now rewrite Hr.
    + rewrite Hr. now apply instanceOf_prototype with U a.
Qed.

(** ** The hand-written adapter on the heap *)

Lemma MyType_installed_inv w :
  MyType_installed w = true ->
  exists a c, registry w !! AdaptedMyType.className = Some a
              /\ classes w !! _jsclass a = Some c /\ has_private c = true.
Proof.
  unfold MyType_installed. intros H.
  destruct (registry w !! AdaptedMyType.className) as [a|] eqn:Ea; [|discriminate].
  destruct (classes w !! _jsclass a) as [c|] eqn:Ec; [|discriminate].
  exists a, c. repeat split; auto.
Qed.

(** What [construct] does on a string argument [atoll] can convert: a new
    payload holding the value, a new object of the class around it, and the
    object in the return slot. *)
Lemma construct_spec w callee this s v rest :
  MyType_installed w = true ->
  atoll s = Some v ->
  exists a w',
    registry w !! AdaptedMyType.className = Some a
    /\ JS_CallNative AdaptedMyType.construct callee this (StringValue s :: rest) w
       = Normal (Some (ObjectValue (fresh (dom (objects w))))) w'
    /\ objects w' = <[fresh (dom (objects w)) :=
                       {| clasp := _jsclass a; proto := _proto a;
                          private := Some (fresh (dom (free_store w))) |}]> (objects w)
    /\ free_store w' = <[fresh (dom (free_store w)) := {| val := v |}]> (free_store w)
    /\ classes w' = classes w
    /\ registry w' = registry w.
Proof.
  intros Hi Hs. destruct (MyType_installed_inv w Hi) as (a & c & Ha & Hc & Hp).
  exists a. eexists. split; [exact Ha|].
  unfold JS_CallNative, AdaptedMyType.construct, bind, get, reads. simpl.
  rewrite Hs. unfold bind, new_MyType, fromContext. simpl. rewrite Ha.
  unfold AdaptedMyType.newObject, JS_NewObject, JS_SetPrivate, class_of. simpl.
  rewrite lookup_insert_eq. simpl. rewrite Hc, Hp. simpl.
  split; [reflexivity|]. simpl. rewrite insert_insert_eq.
  repeat split; reflexivity.
Qed.

(** What [toString] does on a receiver that holds a live payload. *)
Lemma toString_spec w callee o ob c p m args :
  objects w !! o = Some ob ->
  classes w !! clasp ob = Some c ->
  has_private c = true ->
  private ob = Some p ->
  free_store w !! p = Some m ->
  exists w',
    JS_CallNative AdaptedMyType.toString callee (ObjectValue o) args w
    = Normal (Some (StringValue (JS_NewStringCopyZ (to_string (val m))))) w'
    /\ objects w' = objects w /\ free_store w' = free_store w.
Proof.
  intros Ho Hc Hp Hpr Hm. eexists.
  unfold JS_CallNative, AdaptedMyType.toString, bind, thisv, reads, receiver. simpl.
  unfold JS_GetPrivate, class_of. simpl. rewrite Ho, Hc, Hp, Hpr. simpl.
  rewrite Hm. simpl. repeat split; reflexivity.
Qed.

(** ** Decimal strings *)

Lemma isdigit_inv c :
  isdigit c = true ->
  0 <= digit_value c <= 9 /\ digit_char (digit_value c) = c
  /\ isspace c = false /\ c <> "-"%char /\ c <> "+"%char /\ c <> zero.
Proof.
  destruct c as [[] [] [] [] [] [] [] []]; vm_compute; intros H;
    try discriminate H; repeat split; congruence.
Qed.

Lemma digit_zero c : isdigit c = true -> digit_value c = 0 -> c = "0"%char.
Proof.
  intros H H0. destruct (isdigit_inv c H) as (_ & Hc & _).
  rewrite H0 in Hc. now rewrite <- Hc.
Qed.

Lemma accumulate_app a ds r :
  forallb isdigit ds = true ->
  accumulate a (ds ++ r) = accumulate (accumulate a ds) r.
Proof.
  revert a. induction ds as [|c ds IH]; intros a H; [reflexivity|].
  simpl in H. apply andb_true_iff in H as [Hc Hds].
  simpl. rewrite Hc. now apply IH.
Qed.

Lemma accumulate_ge a ds : 0 <= a -> a <= accumulate a ds.
Proof.
  revert a. induction ds as [|c ds IH]; intros a Ha; simpl; [lia|].
  destruct (isdigit c) eqn:E; [|lia].
  destruct (isdigit_inv c E) as (Hr & _).
  specialize (IH (a * 10 + digit_value c)). lia.
Qed.

Lemma nonzero_led_positive ds : nonzero_led ds -> 1 <= accumulate 0 ds.
Proof.
  intros (Hd & c & r & -> & Hc). simpl in Hd.
  apply andb_true_iff in Hd as [Hdc _]. simpl. rewrite Hdc.
  destruct (isdigit_inv c Hdc) as (Hr & _).
  assert (digit_value c <> 0) by (intros H0; apply Hc; now apply digit_zero).
  pose proof (accumulate_ge (0 * 10 + digit_value c) r). lia.
Qed.

Lemma nonzero_led_prefix ds d :
  ds <> [] -> nonzero_led (ds ++ [d]) -> nonzero_led ds /\ isdigit d = true.
Proof.
  intros Hne (Hd & c & r & Heq & Hc).
  rewrite forallb_app in Hd. apply andb_true_iff in Hd as [Hds Hdd].
  simpl in Hdd. rewrite andb_true_r in Hdd.
  split; [|exact Hdd]. split; [exact Hds|].
  destruct ds as [|c' ds']; [contradiction|].
  simpl in Heq. injection Heq as -> _. now exists c, ds'.
Qed.

(** Printing the value of a digit string without leading zero gives the
    string back. *)
Lemma utoa_accumulate ds :
  nonzero_led ds ->
  forall fuel acc,
    accumulate 0 ds < 10 ^ Z.of_nat fuel ->
    utoa fuel (accumulate 0 ds) acc = ds ++ acc.
Proof.
  induction ds as [|d ds IH] using rev_ind; intros Hnz fuel acc Hlt.
  - destruct Hnz as (_ & c & r & H & _). discriminate H.
  - destruct fuel as [|fuel].
    { pose proof (nonzero_led_positive _ Hnz). simpl in Hlt. lia. }
    destruct (decide (ds = [])) as [->|Hne].
    + destruct Hnz as (Hd & c & r & Heq & Hc). simpl in Heq.
      injection Heq as <- _. simpl in Hd. rewrite andb_true_r in Hd.
      destruct (isdigit_inv d Hd) as (Hr & Hch & _).
      cbn [app accumulate]. rewrite Hd.
      replace (0 * 10 + digit_value d) with (digit_value d) by lia.
      cbn [utoa].
      rewrite Z.mod_small by lia. rewrite Z.div_small by lia.
      rewrite Hch. reflexivity.
    + destruct (nonzero_led_prefix ds d Hne Hnz) as [Hnz' Hd].
      pose proof (nonzero_led_positive _ Hnz') as Hpos.
      destruct (isdigit_inv d Hd) as (Hr & Hch & _).
      destruct Hnz' as [Hall Hhd].
      rewrite accumulate_app by exact Hall.
      simpl accumulate. rewrite Hd.
      set (n := accumulate 0 ds) in *.
      assert (Hmod : (n * 10 + digit_value d) mod 10 = digit_value d).
      { rewrite Z.add_comm, Z.mod_add by lia. apply Z.mod_small. lia. }
      assert (Hdiv : (n * 10 + digit_value d) / 10 = n).
      { rewrite Z.add_comm, Z.div_add by lia. rewrite Z.div_small by lia. lia. }
      assert (Hn : n < 10 ^ Z.of_nat fuel).
      { rewrite accumulate_app in Hlt by exact Hall. simpl accumulate in Hlt.
        rewrite Hd in Hlt. fold n in Hlt.
        rewrite Nat2Z.inj_succ, Z.pow_succ_r in Hlt by lia. lia. }
      cbn [utoa]. rewrite Hmod, Hdiv, Hch.
      destruct (n =? 0) eqn:E; [apply Z.eqb_eq in E; lia|].
      rewrite (IH (conj Hall Hhd) fuel (d :: acc) Hn).
      now rewrite <- app_assoc.
Qed.

Lemma canonical_digits_cases ds :
  canonical_digits ds = true -> ds = ["0"%char] \/ nonzero_led ds.
Proof.
  destruct ds as [|c r]; [discriminate|].
  destruct (ascii_dec c "0") as [->|Hc]; intros H.
  - destruct r; [now left|discriminate H].
  - right. split; [|now exists c, r].
    revert H Hc.
    destruct c as [[] [] [] [] [] [] [] []]; intros H Hc;
      first [exact H | exfalso; now apply Hc].
Qed.

Lemma canonical_chars_cases l :
  canonical_chars l = true ->
  l = ["0"%char] \/ nonzero_led l \/ exists r, l = "-"%char :: r /\ nonzero_led r.
Proof.
  destruct l as [|c r]; [discriminate|].
  destruct (ascii_dec c "-") as [->|Hc]; intros H.
  - right. right. exists r. split; [reflexivity|].
    destruct r as [|d r']; [discriminate H|].
    destruct (ascii_dec d "0") as [->|Hd]; [discriminate H|].
    assert (Hcd : canonical_digits (d :: r') = true).
    { revert H Hd. unfold canonical_chars.
      destruct d as [[] [] [] [] [] [] [] []]; intros H Hd;
        first [exact H | exfalso; now apply Hd]. }
    destruct (canonical_digits_cases _ Hcd) as [Hz|Hnz]; [|exact Hnz].
    injection Hz as -> _. now contradiction Hd.
  - assert (Hcd : canonical_digits (c :: r) = true).
    { revert H Hc. unfold canonical_chars.
      destruct c as [[] [] [] [] [] [] [] []]; intros H Hc;
        first [exact H | exfalso; now apply Hc]. }
    destruct (canonical_digits_cases _ Hcd) as [Hz|Hnz]; [now left|right; now left].
Qed.

Lemma strtoll_value_digit c r :
  isdigit c = true -> strtoll_value (c :: r) = accumulate 0 (c :: r).
Proof.
  destruct c as [[] [] [] [] [] [] [] []]; intros H;
    first [discriminate H | reflexivity].
Qed.

Lemma strtoll_value_nonzero_led l :
  nonzero_led l -> strtoll_value l = accumulate 0 l.
Proof.
  intros (Hd & c & r & -> & _). apply strtoll_value_digit.
  simpl in Hd. now apply andb_true_iff in Hd as [Hd _].
Qed.

Lemma int64_below_fuel v : in_int64 v = true -> - 10 ^ 20 < v < 10 ^ 20.
Proof.
  unfold in_int64, INT64_MIN, INT64_MAX. intros H.
  apply andb_true_iff in H as [H1 H2].
  apply Z.leb_le in H1, H2. lia.
Qed.

(** Parsing a canonical spelling and printing the value gives the spelling
    back. *)
Lemma to_chars_strtoll_value l :
  canonical_chars l = true ->
  in_int64 (strtoll_value l) = true ->
  to_chars (strtoll_value l) = l.
Proof.
  intros Hc Hr. pose proof (int64_below_fuel _ Hr) as Hb.
  destruct (canonical_chars_cases l Hc) as [->|[Hnz|(r & -> & Hnz)]].
  - reflexivity.
  - rewrite strtoll_value_nonzero_led in * by exact Hnz.
    pose proof (nonzero_led_positive l Hnz) as Hpos.
    unfold to_chars. destruct (accumulate 0 l <? 0) eqn:E; [apply Z.ltb_lt in E; lia|].
    rewrite (utoa_accumulate l Hnz 20 []) by (simpl; lia).
    apply app_nil_r.
  - change (strtoll_value ("-"%char :: r)) with (- accumulate 0 r) in *.
    pose proof (nonzero_led_positive r Hnz) as Hpos.
    unfold to_chars. destruct (- accumulate 0 r <? 0) eqn:E; [|apply Z.ltb_ge in E; lia].
    rewrite Z.opp_involutive.
    rewrite (utoa_accumulate r Hnz 20 []) by (simpl; lia).
    now rewrite app_nil_r.
Qed.

Lemma canonical_chars_no_nul l :
  canonical_chars l = true ->
  forallb (fun c => negb (Ascii.eqb c zero)) l = true.
Proof.
  assert (Hdig : forall ds, forallb isdigit ds = true ->
                            forallb (fun c => negb (Ascii.eqb c zero)) ds = true).
  { intros ds H. apply forallb_forall. intros c Hin.
    rewrite forallb_forall in H. specialize (H c Hin).
    destruct (isdigit_inv c H) as (_ & _ & _ & _ & _ & Hz).
    apply negb_true_iff. now apply Ascii.eqb_neq. }
  intros Hc. destruct (canonical_chars_cases l Hc) as [->|[Hnz|(r & -> & Hnz)]].
  - reflexivity.
  - apply Hdig, Hnz.
  - simpl. apply Hdig, Hnz.
Qed.

Lemma JS_NewStringCopyZ_no_nul s :
  forallb (fun c => negb (Ascii.eqb c zero)) (list_ascii_of_string s) = true ->
  JS_NewStringCopyZ s = s.
Proof.
  induction s as [|c s IH]; [reflexivity|].
  simpl. intros H. apply andb_true_iff in H as [Hc Hs].
  apply negb_true_iff in Hc. rewrite Hc. now rewrite IH.
Qed.

(** A canonical in-range spelling survives [atoll], [std::to_string] and the
    copy into a runtime string. *)
Lemma canonical_int64_roundtrip s :
  canonical_int64 s = true ->
  exists v, atoll s = Some v /\ JS_NewStringCopyZ (to_string v) = s.
Proof.
  unfold canonical_int64. intros H. apply andb_true_iff in H as [Hc Hr].
  exists (strtoll_value (list_ascii_of_string s)). split.
  - unfold atoll. now rewrite Hr.
  - unfold to_string. rewrite (to_chars_strtoll_value _ Hc Hr).
    rewrite string_of_list_ascii_of_string.
    apply JS_NewStringCopyZ_no_nul, canonical_chars_no_nul, Hc.
Qed.

(** ** Construction and the string accessor *)

(** C6, as amended: for every canonical in-range decimal spelling [s] (the
    one [std::to_string] prints: digits only, no leading zero, a minus sign
    only before a non-zero number), constructing from [s] and then calling
    [toString] on the new object returns [s] exactly; the value never passes
    through a double. *)
Theorem construct_toString_roundtrip (w : World) (s : string) :
  MyType_installed w = true ->
  canonical_int64 s = true ->
  roundtrip_holds w s.
Proof.
  intros Hi Hs.
  destruct (canonical_int64_roundtrip s Hs) as (v & Hv & Hcopy).
  destruct (MyType_installed_inv w Hi) as (a & c & Ha & Hc & Hp).
  destruct (construct_spec w UndefinedValue UndefinedValue s v [] Hi Hv)
    as (a' & w1 & Ha' & Hcall & Hobj & Hfs & Hcl & _).
  assert (a' = a) as -> by congruence.
  set (o := fresh (dom (objects w))) in *.
  set (p := fresh (dom (free_store w))) in *.
  destruct (toString_spec w1 UndefinedValue o
              {| clasp := _jsclass a; proto := _proto a; private := Some p |}
              c p {| val := v |} [])
    as (w2 & Hts & _).
  - rewrite Hobj. apply lookup_insert_eq.
  - rewrite Hcl. exact Hc.
  - exact Hp.
  - reflexivity.
  - rewrite Hfs. apply lookup_insert_eq.
  - exists o, w1, w2. split; [exact Hcall|].
    rewrite Hts. simpl. now rewrite Hcopy.
Qed.

Lemma construct_toString_roundtrip_witness :
  roundtrip_holds installed_world "9223372036854775807".
Proof.
  apply construct_toString_roundtrip; vm_compute; reflexivity.
Defined.

(** C6, as stated, fails on a spelling with leading zeros: ["007"] is an
    in-range decimal string, and the object built from it prints ["7"]. *)
Lemma roundtrip_fails_on_leading_zeros :
  decimal_int64 "007" = true /\ ~ roundtrip_holds installed_world "007".
Proof.
  split; [reflexivity|].
  intros (o & w1 & w2 & H1 & H2).
  vm_compute in H1. injection H1 as <- <-.
  vm_compute in H2. discriminate H2.
Qed.

Lemma no_conversion_atoll s : no_conversion s = true -> atoll s = Some 0.
Proof.
  unfold no_conversion, atoll, strtoll_value.
  destruct (skip_space (list_ascii_of_string s)) as [|c r]; [reflexivity|].
  destruct c as [[] [] [] [] [] [] [] []]; simpl; intros H;
    try discriminate H; try reflexivity;
    (destruct r as [|d r']; [reflexivity|];
     simpl; apply negb_true_iff in H; rewrite H; reflexivity).
Qed.

(** C9: constructing from a string in which [atoll] finds nothing to convert
    (["abc"], for one) succeeds, and the payload of the new object holds 0. *)
Theorem construct_unparsable_is_zero (w : World) (callee this : Value) (s : string) :
  MyType_installed w = true ->
  no_conversion s = true ->
  exists o ob p w',
    JS_CallNative AdaptedMyType.construct callee this [StringValue s] w
    = Normal (Some (ObjectValue o)) w'
    /\ objects w' !! o = Some ob
    /\ private ob = Some p
    /\ free_store w' !! p = Some {| val := 0 |}.
Proof.
  intros Hi Hs.
  destruct (construct_spec w callee this s 0 [] Hi (no_conversion_atoll s Hs))
    as (a & w' & _ & Hcall & Hobj & Hfs & _).
  eexists _, _, _, w'. split; [exact Hcall|].
  rewrite Hobj, Hfs. rewrite !lookup_insert_eq. repeat split; reflexivity.
Qed.

Lemma construct_unparsable_is_zero_witness :
  exists o ob p w',
    JS_CallNative AdaptedMyType.construct UndefinedValue UndefinedValue
      [StringValue "abc"] installed_world
    = Normal (Some (ObjectValue o)) w'
    /\ objects w' !! o = Some ob
    /\ private ob = Some p
    /\ free_store w' !! p = Some {| val := 0 |}.
Proof.
  apply construct_unparsable_is_zero; vm_compute; reflexivity.
Defined.

(** ** The private slot *)

(** C5: on an object of a class with a private slot, [finalize] does nothing
    and ends normally when the slot is null; when the slot holds a live
    payload [p], it frees [p] and leaves every other allocation, and the
    rest of the world, as they were. *)
Theorem finalize_releases_exactly_payload (w : World) (o : positive)
    (ob : JSObject) (c : JSClass) :
  objects w !! o = Some ob ->
  classes w !! clasp ob = Some c ->
  has_private c = true ->
  (private ob = None -> AdaptedMyType.finalize (Some o) w = Normal tt w)
  /\ (forall p m,
        private ob = Some p ->
        free_store w !! p = Some m ->
        exists w',
          AdaptedMyType.finalize (Some o) w = Normal tt w'
          /\ free_store w' !! p = None
          /\ (forall q, q <> p -> free_store w' !! q = free_store w !! q)
          /\ objects w' = objects w /\ classes w' = classes w
          /\ registry w' = registry w /\ vp w' = vp w
          /\ pending_exception w' = pending_exception w).
Proof.
  intros Ho Hc Hp. split.
  - intros Hn. unfold AdaptedMyType.finalize, bind, JS_GetPrivate, class_of.
    now rewrite Ho, Hc, Hp, Hn.
  - intros p m Hs Hm. eexists.
    unfold AdaptedMyType.finalize, bind, JS_GetPrivate, class_of.
    rewrite Ho, Hc, Hp, Hs. unfold delete_MyType. rewrite Hm.
    split; [reflexivity|]. simpl.
    split; [apply lookup_delete_eq|].
    split; [intros q Hq; now apply lookup_delete_ne|].
    repeat split; reflexivity.
Qed.

Lemma finalize_releases_exactly_payload_witness :
  AdaptedMyType.finalize (Some 1%positive) world_with_five = Normal tt world_with_five
  /\ exists w',
       AdaptedMyType.finalize (Some 2%positive) world_with_five = Normal tt w'
       /\ free_store w' !! 1%positive = None.
Proof.
  split.
  - apply (proj1 (finalize_releases_exactly_payload world_with_five 1
                    {| clasp := 1; proto := None; private := None |}
                    {| class_name := "MyType"; class_flags := 1 |}
                    eq_refl eq_refl eq_refl)).
    reflexivity.
  - destruct (proj2 (finalize_releases_exactly_payload world_with_five 2
                       {| clasp := 1; proto := Some 1%positive; private := Some 1%positive |}
                       {| class_name := "MyType"; class_flags := 1 |}
                       eq_refl eq_refl eq_refl)
                1%positive {| val := 5 |} eq_refl eq_refl)
      as (w' & H1 & H2 & _).
    exists w'. split; assumption.
Defined.

(** ** Construction through the installer *)

(** C8: when the construct hook fails, [newInstance] fails with the same
    exception and the object it had created is no longer in the heap;
    [newInstance] hands back an object only when the hook has completed on
    it. *)
Theorem newInstance_discards_on_failure (self : Adapter)
    (construct : option positive -> list Value -> M unit)
    (args : list Value) (w : World) :
  let o := fresh (dom (objects w)) in
  let w1 := world_of (WrapType.newObject self w) in
  (forall e w2,
      construct (Some o) args w1 = Thrown e w2 ->
      exists w',
        WrapType.newInstance self construct args w = Thrown e w'
        /\ objects w' !! o = None
        /\ objects w' = delete o (objects w2)
        /\ free_store w' = free_store w2)
  /\ (forall r w',
        WrapType.newInstance self construct args w = Normal r w' ->
        r = Some o /\ construct (Some o) args w1 = Normal tt w').
Proof.
  intros o w1. split.
  - intros e w2 H. eexists.
    unfold WrapType.newInstance, bind, try_catch. simpl.
    fold o. change (set_objects _ w) with w1. rewrite H. simpl.
    split; [reflexivity|]. simpl.
    split; [apply lookup_delete_eq|]. split; reflexivity.
  - intros r w'. unfold WrapType.newInstance, bind, try_catch. simpl.
    fold o. change (set_objects _ w) with w1.
    destruct (construct (Some o) args w1) as [[] w2|e w2|]; simpl; intros H;
      try discriminate H.
    injection H as <- <-. split; reflexivity.
Qed.

Lemma newInstance_discards_on_failure_witness :
  exists w',
    WrapType.newInstance {| _jsclass := 1; _proto := Some 1%positive |}
      (fun out _ => JS_SetPrivate out (Some 7%positive) >> throw (other_exception "int"))
      [] installed_world
    = Thrown (other_exception "int") w'
    /\ objects w' !! 2%positive = None.
Proof.
  destruct (proj1 (newInstance_discards_on_failure
                     {| _jsclass := 1; _proto := Some 1%positive |}
                     (fun out _ => JS_SetPrivate out (Some 7%positive)
                                   >> throw (other_exception "int"))
                     [] installed_world)
              (other_exception "int") _ eq_refl)
    as (w' & H1 & H2 & _).
  exists w'. split; assumption.
Defined.

(** ** Installation *)


(** Once the context holds the adapter the constructor returned, [MyType] is
    installed in the sense the receiver checks rely on. *)
Lemma constructed_then_recorded (global : positive) (w : World) :
  exists a p w',
    (let! self := AdaptedMyType.constructor global in
     record_adapter AdaptedMyType.className self >> ret self) w = Normal a w'
    /\ installed w' AdaptedMyType.className a p
    /\ MyType_installed w' = true.
Proof.
  eexists _, (fresh (dom (objects w))), _.
  unfold AdaptedMyType.constructor, record_adapter, bind, JS_InitClass,
    JS_NewObject, modify, ret.
  split; [reflexivity|]. split.
  - unfold installed. cbn [registry objects set_registry set_objects set_classes].
    split; [apply lookup_insert_eq|]. split; [reflexivity|].
    eexists. split; [apply lookup_insert_eq|reflexivity].
  - unfold MyType_installed.
    cbn [registry classes objects set_registry set_objects set_classes].
    rewrite (lookup_insert_eq (registry w)). cbn [_jsclass].
    rewrite (lookup_insert_eq (classes w)). reflexivity.
Qed.

(** [construct] leaves [MyType] installed. *)
Lemma construct_keeps_installed w callee this s v rest w' o :
  MyType_installed w = true ->
  atoll s = Some v ->
  JS_CallNative AdaptedMyType.construct callee this (StringValue s :: rest) w
  = Normal o w' ->
  MyType_installed w' = true.
Proof.
  intros Hi Hs Hcall.
  destruct (construct_spec w callee this s v rest Hi Hs)
    as (a & w1 & _ & Hcall1 & _ & _ & Hcl & Hreg).
  rewrite Hcall in Hcall1. injection Hcall1 as _ ->.
  unfold MyType_installed in *. now rewrite Hreg, Hcl.
Qed.

Lemma classes_distinct_installed_world : classes_distinct installed_world.
Proof.
  assert (R : registry installed_world
              = {[ "MyType" := {| _jsclass := 1; _proto := Some 1%positive |} ]})
    by (vm_compute; reflexivity).
  intros T1 T2 a1 a2 H1 H2 _. rewrite R in H1, H2.
  apply lookup_singleton_Some in H1 as [<- _], H2 as [<- _]. reflexivity.
Qed.

Lemma classes_distinct_two_type_world : classes_distinct two_type_world.
Proof.
  assert (R : registry two_type_world
              = <[ "Other" := {| _jsclass := 2; _proto := Some 3%positive |} ]>
                  {[ "MyType" := {| _jsclass := 1; _proto := Some 1%positive |} ]})
    by (vm_compute; reflexivity).
  intros T1 T2 a1 a2 H1 H2 Hc. rewrite R in H1, H2.
  apply lookup_insert_Some in H1 as [[<- <-]|[_ H1]];
    apply lookup_insert_Some in H2 as [[<- <-]|[_ H2]];
    try apply lookup_singleton_Some in H1 as [<- <-];
    try apply lookup_singleton_Some in H2 as [<- <-];
    first [reflexivity | discriminate Hc].
Qed.

(** ** Concrete runs of the adapters *)

Lemma wrapFunction_catches_all_witness :
  wrapFunction lippincott throwing_callback 0
    (call_frame UndefinedValue [] installed_world)
  = Normal false
      (lippincott (other_exception "int") (call_frame UndefinedValue [] installed_world))
  /\ wrapFunction lippincott marking_callback 0
       (call_frame UndefinedValue [] installed_world)
     = Normal true (set_vp (fun l => <[0%nat := BooleanValue true]> l)
                      (call_frame UndefinedValue [] installed_world)).
Proof.
  split.
  - apply (proj1 (wrapFunction_catches_all lippincott throwing_callback 0
                    (call_frame UndefinedValue [] installed_world))).
    reflexivity.
  - apply (proj1 (proj2 (wrapFunction_catches_all lippincott marking_callback 0
                           (call_frame UndefinedValue [] installed_world))) tt).
    reflexivity.
Defined.

Lemma wrapConstrainedMethod_check_order_witness :
  marking_method true string_frame
  = Normal false (lippincott (NotAnObject marking_callback) string_frame)
  /\ marking_method true other_frame
     = Normal false (lippincott (WrongType marking_callback) other_frame)
  /\ marking_method true proto_frame
     = Normal false (lippincott (CalledOnPrototype marking_callback) proto_frame)
  /\ marking_method true instance_frame
     = Normal true (set_vp (fun l => <[0%nat := BooleanValue true]> l) instance_frame).
Proof.
  unfold marking_method. split; [|split; [|split]].
  - apply (proj1 (wrapConstrainedMethod_check_order lippincott marking_callback true
                    (instanceOf ["MyType"]) 0 string_frame));
      reflexivity.
  - apply (proj1 (proj2 (wrapConstrainedMethod_check_order lippincott
                           marking_callback true (instanceOf ["MyType"]) 0 other_frame))
             eq_refl false other_frame);
      reflexivity.
  - apply (proj1 (proj2 (proj2 (wrapConstrainedMethod_check_order lippincott
                                  marking_callback true (instanceOf ["MyType"]) 0
                                  proto_frame)))
             eq_refl proto_frame);
      reflexivity.
  - rewrite (proj2 (proj2 (proj2 (wrapConstrainedMethod_check_order lippincott
                                    marking_callback true (instanceOf ["MyType"]) 0
                                    instance_frame)))
               eq_refl false instance_frame eq_refl eq_refl).
    reflexivity.
Defined.

Lemma wrapConstrainedMethod_proto_allowed_witness :
  marking_method false proto_frame
  = Normal true (set_vp (fun l => <[0%nat := BooleanValue true]> l) proto_frame).
Proof.
  unfold marking_method.
  rewrite (wrapConstrainedMethod_proto_allowed lippincott marking_callback
             (instanceOf ["MyType"]) 0 proto_frame proto_frame eq_refl eq_refl).
  reflexivity.
Defined.

Lemma constrained_rejects_foreign_receivers_witness :
  marking_method true other_frame
  = Normal false (lippincott (WrongType marking_callback) other_frame)
  /\ marking_method true string_frame
     = Normal false (lippincott (NotAnObject marking_callback) string_frame).
Proof.
  unfold marking_method. split.
  - apply (proj1 (constrained_rejects_foreign_receivers lippincott marking_callback
                    true ["MyType"] 0 other_frame)
             3%positive {| clasp := 2; proto := None; private := None |}
             "Other" {| _jsclass := 2; _proto := Some 3%positive |});
      try reflexivity.
    + exact classes_distinct_two_type_world.
    + intros [H|[]]. discriminate H.
  - apply (proj2 (constrained_rejects_foreign_receivers lippincott marking_callback
                    true ["MyType"] 0 string_frame)).
    reflexivity.
Defined.

Lemma prototype_receiver_rejected_witness :
  AdaptedMyType.instanceOf {| _jsclass := 1; _proto := Some 1%positive |}
    (Some 1%positive) proto_frame = Normal true proto_frame
  /\ instanceOf ["MyType"] (ObjectValue 1) proto_frame = Normal (true, true) proto_frame
  /\ wrapConstrainedMethod lippincott marking_callback true
       (instanceOf ["Other"; "MyType"]) 0 proto_frame
     = Normal false (lippincott (CalledOnPrototype marking_callback) proto_frame).
Proof.
  apply (prototype_receiver_rejected lippincott marking_callback ["Other"; "MyType"]
           0 proto_frame "MyType" {| _jsclass := 1; _proto := Some 1%positive |} 1).
  - split; [reflexivity|]. split; [reflexivity|].
    exists {| clasp := 1; proto := None; private := None |}.
    split; reflexivity.
  - exact classes_distinct_two_type_world.
  - reflexivity.
  - right. now left.
  - reflexivity.
Defined.

(** ** The hardened [toNumber] *)

Section HardenedToNumber.

Variable cppToJSException : exception -> World -> World.

Lemma toNumber_not_object argc w :
  isObject (receiver w) = false ->
  toNumber cppToJSException argc w
  = Normal false
      (cppToJSException
         (runtime_error "MyType::toNumber can only be called on objects") w).
Proof.
  intros H. unfold toNumber, try_catch, bind, thisv, reads. now rewrite H.
Qed.

Lemma toNumber_wrong_type argc w o ob a :
  receiver w = ObjectValue o ->
  objects w !! o = Some ob ->
  registry w !! AdaptedMyType.className = Some a ->
  clasp ob <> _jsclass a ->
  toNumber cppToJSException argc w
  = Normal false
      (cppToJSException
         (runtime_error
            "MyType::toNumber can only be called on objects of type MyType") w).
Proof.
  intros Hr Ho Ha Hc.
  unfold toNumber, try_catch, bind, thisv, reads. rewrite Hr.
  cbn [isObject negb toObjectOrNull ret]. unfold fromContext. rewrite Ha.
  unfold AdaptedMyType.instanceOf, JS_InstanceOf. rewrite Ho.
  now rewrite bool_decide_eq_false_2.
Qed.

Lemma toNumber_on_prototype argc w a p :
  installed w AdaptedMyType.className a p ->
  receiver w = ObjectValue p ->
  toNumber cppToJSException argc w
  = Normal false
      (cppToJSException
         (runtime_error "MyType::toNumber can't be called on the prototype") w).
Proof.
  intros (Ha & Hp & ob & Ho & Hc) Hr.
  unfold toNumber, try_catch, bind, thisv, reads. rewrite Hr.
  cbn [isObject negb toObjectOrNull ret]. unfold fromContext. rewrite Ha.
  unfold AdaptedMyType.instanceOf, JS_InstanceOf. rewrite Ho.
  rewrite bool_decide_eq_true_2 by exact Hc.
  cbn [negb]. rewrite Ha. now rewrite bool_decide_eq_true_2.
Qed.

(** On an instance that holds a live payload the hardened [toNumber] stores
    the payload, converted to a double, in the return slot. *)
Lemma toNumber_on_instance argc w a o ob c p m :
  receiver w = ObjectValue o ->
  registry w !! AdaptedMyType.className = Some a ->
  objects w !! o = Some ob ->
  clasp ob = _jsclass a ->
  _proto a <> Some o ->
  classes w !! clasp ob = Some c ->
  has_private c = true ->
  private ob = Some p ->
  free_store w !! p = Some m ->
  toNumber cppToJSException argc w
  = Normal true
      (set_vp (fun l => <[0%nat := NumberValue (int64_to_double (val m))]> l) w).
Proof.
  intros Hr Ha Ho Hc Hnp Hcl Hp Hpr Hm.
  unfold toNumber, try_catch, bind, thisv, reads. rewrite Hr.
  cbn [isObject negb toObjectOrNull ret]. unfold fromContext. rewrite Ha.
  unfold AdaptedMyType.instanceOf, JS_InstanceOf. rewrite Ho.
  rewrite bool_decide_eq_true_2 by exact Hc.
  cbn [negb]. rewrite Ha. rewrite bool_decide_eq_false_2 by exact Hnp.
  rewrite Hr. cbn [toObjectOrNull ret].
  unfold JS_GetPrivate, class_of. rewrite Ho, Hcl, Hp, Hpr.
  unfold deref. now rewrite Hm.
Qed.

End HardenedToNumber.

(** The first [toNumber] dereferences the null slot of the prototype. *)
Lemma naive_toNumber_on_prototype argc w a p ob c :
  installed w AdaptedMyType.className a p ->
  receiver w = ObjectValue p ->
  objects w !! p = Some ob ->
  classes w !! clasp ob = Some c ->
  private ob = None ->
  AdaptedMyType.toNumber argc w = Undefined.
Proof.
  intros _ Hr Ho Hc Hn.
  unfold AdaptedMyType.toNumber, bind, thisv, reads. rewrite Hr.
  cbn [toObjectOrNull ret]. unfold JS_GetPrivate, class_of. rewrite Ho, Hc.
  destruct (has_private c); [|reflexivity]. now rewrite Hn.
Qed.

(** The double of the largest 64-bit integer is 2^63: the number accessor
    cannot reproduce it, the string accessor can. *)
Example int64_to_double_rounds :
  int64_to_double INT64_MAX = S754_finite false (2 ^ 52) 11.
Proof. reflexivity. Qed.

(** * Further properties of the adapters *)

(** ** The hardened [toNumber], continued *)

Lemma naive_toNumber_on_instance argc w o ob c p m :
  receiver w = ObjectValue o ->
  objects w !! o = Some ob ->
  classes w !! clasp ob = Some c ->
  has_private c = true ->
  private ob = Some p ->
  free_store w !! p = Some m ->
  AdaptedMyType.toNumber argc w
  = Normal true
      (set_vp (fun l => <[0%nat := NumberValue (int64_to_double (val m))]> l) w).
Proof.
  intros Hr Ho Hcl Hp Hpr Hm.
  unfold AdaptedMyType.toNumber, bind, thisv, reads. rewrite Hr.
  cbn [toObjectOrNull ret]. unfold JS_GetPrivate, class_of.
  rewrite Ho, Hcl, Hp, Hpr. unfold deref. now rewrite Hm.
Qed.

Lemma naive_toString_on_prototype argc w p ob c :
  receiver w = ObjectValue p ->
  objects w !! p = Some ob ->
  classes w !! clasp ob = Some c ->
  private ob = None ->
  AdaptedMyType.toString argc w = Undefined.
Proof.
  intros Hr Ho Hc Hn.
  unfold AdaptedMyType.toString, bind, thisv, reads. rewrite Hr.
  cbn [toObjectOrNull ret]. unfold JS_GetPrivate, class_of. rewrite Ho, Hc.
  destruct (has_private c); [|reflexivity]. now rewrite Hn.
Qed.

(** X1: the hardened [toNumber] rejects, in this order, a receiver that is
    not an object, an object that is not of class [MyType], and the
    prototype of [MyType], each with its own message and each by returning
    [false]; and it never lets a C++ exception out. *)
Theorem toNumber_receiver_checks
    (cppToJSException : exception -> World -> World) (argc : nat) (w : World) :
  (isObject (receiver w) = false ->
     toNumber cppToJSException argc w
     = Normal false
         (cppToJSException
            (runtime_error "MyType::toNumber can only be called on objects") w))
  /\ (forall o ob a,
        receiver w = ObjectValue o ->
        objects w !! o = Some ob ->
        registry w !! AdaptedMyType.className = Some a ->
        clasp ob <> _jsclass a ->
        toNumber cppToJSException argc w
        = Normal false
            (cppToJSException
               (runtime_error
                  "MyType::toNumber can only be called on objects of type MyType") w))
  /\ (forall a p,
        installed w AdaptedMyType.className a p ->
        receiver w = ObjectValue p ->
        toNumber cppToJSException argc w
        = Normal false
            (cppToJSException
               (runtime_error "MyType::toNumber can't be called on the prototype") w))
  /\ (forall e w', toNumber cppToJSException argc w <> Thrown e w').
Proof.
  split; [|split; [|split]].
  - apply toNumber_not_object.
  - intros o ob a. apply toNumber_wrong_type.
  - intros a p. apply toNumber_on_prototype.
  - intros e w'. apply try_report_not_thrown.
Qed.

Lemma toNumber_receiver_checks_witness :
  toNumber lippincott 0 string_frame
  = Normal false
      (lippincott (runtime_error "MyType::toNumber can only be called on objects")
         string_frame)
  /\ toNumber lippincott 0 other_frame
     = Normal false
         (lippincott
            (runtime_error
               "MyType::toNumber can only be called on objects of type MyType")
            other_frame)
  /\ toNumber lippincott 0 proto_frame
     = Normal false
         (lippincott
            (runtime_error "MyType::toNumber can't be called on the prototype")
            proto_frame).
Proof.
  split; [|split].
  - apply (proj1 (toNumber_receiver_checks lippincott 0 string_frame)).
    reflexivity.
  - apply (proj1 (proj2 (toNumber_receiver_checks lippincott 0 other_frame))
             3%positive {| clasp := 2; proto := None; private := None |}
             {| _jsclass := 1; _proto := Some 1%positive |});
      first [reflexivity | discriminate].
  - apply (proj1 (proj2 (proj2 (toNumber_receiver_checks lippincott 0 proto_frame)))
             {| _jsclass := 1; _proto := Some 1%positive |} 1%positive);
      [|reflexivity].
    split; [reflexivity|]. split; [reflexivity|].
    exists {| clasp := 1; proto := None; private := None |}. split; reflexivity.
Defined.

(** X2: on an instance of [MyType] that is not the prototype and holds a
    live payload, the hardened [toNumber] does exactly what the first
    [toNumber] does: it returns [true] with the payload, converted to a
    double, in the return slot. *)
Theorem toNumber_agrees_on_instances
    (cppToJSException : exception -> World -> World) (argc : nat) (w : World)
    (a : Adapter) (o : positive) (m : MyType) :
  receiver w = ObjectValue o ->
  registry w !! AdaptedMyType.className = Some a ->
  (exists ob, objects w !! o = Some ob /\ clasp ob = _jsclass a) ->
  _proto a <> Some o ->
  holds w o m ->
  toNumber cppToJSException argc w = AdaptedMyType.toNumber argc w
  /\ rval (world_of (toNumber cppToJSException argc w))
     = NumberValue (int64_to_double (val m))
  /\ exists w', toNumber cppToJSException argc w = Normal true w'.
Proof.
  intros Hr Ha (ob0 & Ho0 & Hc0) Hnp (ob & c & p & Ho & Hcl & Hp & Hpr & Hm).
  assert (ob0 = ob) as -> by congruence.
  rewrite (toNumber_on_instance cppToJSException argc w a o ob c p m
             Hr Ha Ho Hc0 Hnp Hcl Hp Hpr Hm).
  rewrite (naive_toNumber_on_instance argc w o ob c p m Hr Ho Hcl Hp Hpr Hm).
  split; [reflexivity|]. split; [|eexists; reflexivity].
  unfold rval, world_of, set_vp. cbn [vp].
  assert (Hlen : (0 < length (vp w))%nat).
  { unfold receiver in Hr. destruct (vp w) as [|x [|y l]]; simpl in *;
      try discriminate Hr; lia. }
  now rewrite list_lookup_insert_eq.
Qed.

Lemma toNumber_agrees_on_instances_witness :
  toNumber lippincott 0 instance_frame = AdaptedMyType.toNumber 0 instance_frame
  /\ rval (world_of (toNumber lippincott 0 instance_frame))
     = NumberValue (int64_to_double 5)
  /\ exists w', toNumber lippincott 0 instance_frame = Normal true w'.
Proof.
  apply (toNumber_agrees_on_instances lippincott 0 instance_frame
           {| _jsclass := 1; _proto := Some 1%positive |} 2 {| val := 5 |}).
  - reflexivity.
  - reflexivity.
  - exists {| clasp := 1; proto := Some 1%positive; private := Some 1%positive |}.
    split; reflexivity.
  - discriminate.
  - exists {| clasp := 1; proto := Some 1%positive; private := Some 1%positive |},
      {| class_name := "MyType"; class_flags := 1 |}, 1%positive.
    split; [reflexivity|]. split; [reflexivity|]. split; [reflexivity|].
    split; reflexivity.
Defined.

(** X3: on the prototype, whose private slot is null, the first [toNumber]
    and [toString] dereference a null pointer, while the hardened
    [toNumber] returns [false] with its error recorded. *)
Theorem naive_accessors_on_prototype
    (cppToJSException : exception -> World -> World) (argc : nat) (w : World)
    (a : Adapter) (p : positive) (ob : JSObject) (c : JSClass) :
  installed w AdaptedMyType.className a p ->
  receiver w = ObjectValue p ->
  objects w !! p = Some ob ->
  classes w !! clasp ob = Some c ->
  private ob = None ->
  AdaptedMyType.toNumber argc w = Undefined
  /\ AdaptedMyType.toString argc w = Undefined
  /\ toNumber cppToJSException argc w
     = Normal false
         (cppToJSException
            (runtime_error "MyType::toNumber can't be called on the prototype") w).
Proof.
  intros Hi Hr Ho Hc Hn. split; [|split].
  - now apply naive_toNumber_on_prototype with a p ob c.
  - now apply naive_toString_on_prototype with p ob c.
  - now apply toNumber_on_prototype with a p.
Qed.

Lemma naive_accessors_on_prototype_witness :
  AdaptedMyType.toNumber 0 proto_frame = Undefined
  /\ AdaptedMyType.toString 0 proto_frame = Undefined
  /\ toNumber lippincott 0 proto_frame
     = Normal false
         (lippincott
            (runtime_error "MyType::toNumber can't be called on the prototype")
            proto_frame).
Proof.
  apply (naive_accessors_on_prototype lippincott 0 proto_frame
           {| _jsclass := 1; _proto := Some 1%positive |} 1
           {| clasp := 1; proto := None; private := None |}
           {| class_name := "MyType"; class_flags := 1 |});
    try reflexivity.
  split; [reflexivity|]. split; [reflexivity|].
  exists {| clasp := 1; proto := None; private := None |}. split; reflexivity.
Defined.

(** ** Objects and payloads *)

(** X4: [newObject] makes an object that was not in the heap, is an instance
    of the adapter's class, differs from every object that was there (the
    prototype included), has a null private slot, and leaves the other
    objects and the free store as they were. *)
Theorem newObject_fresh_instance (self : Adapter) (w : World) :
  exists o w',
    AdaptedMyType.newObject self w = Normal (Some o) w'
    /\ objects w !! o = None
    /\ AdaptedMyType.instanceOf self (Some o) w' = Normal true w'
    /\ objects w' !! o
       = Some {| clasp := _jsclass self; proto := _proto self; private := None |}
    /\ (forall o', is_Some (objects w !! o') ->
                   o' <> o /\ objects w' !! o' = objects w !! o')
    /\ free_store w' = free_store w.
Proof.
  exists (fresh (dom (objects w))). eexists.
  unfold AdaptedMyType.newObject, JS_NewObject.
  split; [reflexivity|].
  assert (Hf : objects w !! fresh (dom (objects w)) = None)
    by apply not_elem_of_dom, is_fresh.
  split; [exact Hf|]. cbn [objects set_objects free_store].
  split; [|split; [|split]].
  - unfold AdaptedMyType.instanceOf, JS_InstanceOf. cbn [objects set_objects].
    rewrite lookup_insert_eq. cbn [clasp]. now rewrite bool_decide_eq_true_2.
  - apply lookup_insert_eq.
  - intros o' [x Hx].
    assert (o' <> fresh (dom (objects w))) by congruence.
    split; [assumption|]. now apply lookup_insert_ne.
  - reflexivity.
Qed.

Lemma toNumber_null_slot cppToJSException argc w a o ob c :
  receiver w = ObjectValue o ->
  registry w !! AdaptedMyType.className = Some a ->
  objects w !! o = Some ob ->
  clasp ob = _jsclass a ->
  _proto a <> Some o ->
  classes w !! clasp ob = Some c ->
  has_private c = true ->
  private ob = None ->
  toNumber cppToJSException argc w = Undefined.
Proof.
  intros Hr Ha Ho Hc Hnp Hcl Hp Hpr.
  unfold toNumber, try_catch, bind, thisv, reads. rewrite Hr.
  cbn [isObject negb toObjectOrNull ret]. unfold fromContext. rewrite Ha.
  unfold AdaptedMyType.instanceOf, JS_InstanceOf. rewrite Ho.
  rewrite bool_decide_eq_true_2 by exact Hc.
  cbn [negb]. rewrite Ha. rewrite bool_decide_eq_false_2 by exact Hnp.
  rewrite Hr. cbn [toObjectOrNull ret].
  unfold JS_GetPrivate, class_of. rewrite Ho, Hcl, Hp, Hpr.
  reflexivity.
Qed.

(** X5: the hardened [toNumber] does not check the slot.  On an object made
    by [newObject] alone, which passes the three receiver checks but has a
    null private slot, it dereferences the null pointer. *)
Theorem toNumber_on_unconstructed_object
    (cppToJSException : exception -> World -> World) (argc : nat)
    (args : list Value) (w : World) (a : Adapter) (p : positive) (c : JSClass) :
  installed w AdaptedMyType.className a p ->
  classes w !! _jsclass a = Some c ->
  has_private c = true ->
  exists o w1,
    AdaptedMyType.newObject a w = Normal (Some o) w1
    /\ toNumber cppToJSException argc (call_frame (ObjectValue o) args w1) = Undefined.
Proof.
  intros (Ha & Hp & ob & Ho & Hc) Hcl Hpriv.
  exists (fresh (dom (objects w))). eexists. split; [reflexivity|].
  set (o := fresh (dom (objects w))).
  assert (Hne : _proto a <> Some o).
  { rewrite Hp. intros [= ->]. subst o.
    assert (Hf : objects w !! fresh (dom (objects w)) = None)
      by apply not_elem_of_dom, is_fresh.
    congruence. }
  apply (toNumber_null_slot cppToJSException argc _ a o
           {| clasp := _jsclass a; proto := _proto a; private := None |} c).
  - reflexivity.
  - exact Ha.
  - apply lookup_insert_eq.
  - reflexivity.
  - exact Hne.
  - exact Hcl.
  - exact Hpriv.
  - reflexivity.
Qed.

Lemma toNumber_on_unconstructed_object_witness :
  exists o w1,
    AdaptedMyType.newObject {| _jsclass := 1; _proto := Some 1%positive |} two_type_world
    = Normal (Some o) w1
    /\ toNumber lippincott 0 (call_frame (ObjectValue o) [] w1) = Undefined.
Proof.
  apply (toNumber_on_unconstructed_object lippincott 0 [] two_type_world
           {| _jsclass := 1; _proto := Some 1%positive |} 1
           {| class_name := "MyType"; class_flags := 1 |});
    try reflexivity.
  split; [reflexivity|]. split; [reflexivity|].
  exists {| clasp := 1; proto := None; private := None |}. split; reflexivity.
Defined.

(** X6: [construct] touches nothing that was there: every object and every
    allocation of the entry world is unchanged afterwards, and the new
    object and its payload are at addresses that were free. *)
Theorem construct_frame (w : World) (callee this : Value) (s : string) (v : Z)
    (rest : list Value) :
  MyType_installed w = true ->
  atoll s = Some v ->
  exists o p ob w',
    JS_CallNative AdaptedMyType.construct callee this (StringValue s :: rest) w
    = Normal (Some (ObjectValue o)) w'
    /\ objects w !! o = None /\ free_store w !! p = None
    /\ objects w' !! o = Some ob /\ private ob = Some p
    /\ free_store w' !! p = Some {| val := v |}
    /\ (forall o', o' <> o -> objects w' !! o' = objects w !! o')
    /\ (forall p', p' <> p -> free_store w' !! p' = free_store w !! p').
Proof.
  intros Hi Hs.
  destruct (construct_spec w callee this s v rest Hi Hs)
    as (a & w' & _ & Hcall & Hobj & Hfs & _).
  exists (fresh (dom (objects w))), (fresh (dom (free_store w))).
  eexists. exists w'. split; [exact Hcall|].
  split; [apply not_elem_of_dom, is_fresh|].
  split; [apply not_elem_of_dom, is_fresh|].
  rewrite Hobj, Hfs.
  split; [apply lookup_insert_eq|]. split; [reflexivity|].
  split; [apply lookup_insert_eq|].
  split; intros x Hx; now apply lookup_insert_ne.
Qed.

Lemma construct_frame_witness :
  exists o p ob w',
    JS_CallNative AdaptedMyType.construct UndefinedValue UndefinedValue
      [StringValue "-12"] world_with_five
    = Normal (Some (ObjectValue o)) w'
    /\ objects world_with_five !! o = None /\ free_store world_with_five !! p = None
    /\ objects w' !! o = Some ob /\ private ob = Some p
    /\ free_store w' !! p = Some {| val := -12 |}
    /\ (forall o', o' <> o -> objects w' !! o' = objects world_with_five !! o')
    /\ (forall p', p' <> p -> free_store w' !! p' = free_store world_with_five !! p').
Proof.
  apply (construct_frame world_with_five UndefinedValue UndefinedValue "-12" (-12) []);
    reflexivity.
Defined.

(** X7: finalizing the object [construct] has just made gives back the
    payload it allocated: the free store is again what it was before the
    construction. *)
Theorem construct_then_finalize (w : World) (callee this : Value) (s : string)
    (v : Z) (rest : list Value) :
  MyType_installed w = true ->
  atoll s = Some v ->
  exists o w1 w2,
    JS_CallNative AdaptedMyType.construct callee this (StringValue s :: rest) w
    = Normal (Some (ObjectValue o)) w1
    /\ AdaptedMyType.finalize (Some o) w1 = Normal tt w2
    /\ free_store w2 = free_store w.
Proof.
  intros Hi Hs.
  destruct (MyType_installed_inv w Hi) as (a0 & c & Ha0 & Hc & Hp).
  destruct (construct_spec w callee this s v rest Hi Hs)
    as (a & w1 & Ha & Hcall & Hobj & Hfs & Hcl & _).
  assert (a0 = a) as -> by congruence.
  exists (fresh (dom (objects w))), w1. eexists. split; [exact Hcall|].
  unfold AdaptedMyType.finalize, bind, JS_GetPrivate, class_of.
  rewrite Hobj, lookup_insert_eq. cbn [clasp private]. rewrite Hcl, Hc, Hp.
  unfold delete_MyType. rewrite Hfs, lookup_insert_eq.
  split; [reflexivity|]. cbn [free_store set_free_store]. rewrite Hfs.
  apply delete_insert_id, not_elem_of_dom, is_fresh.
Qed.

Lemma construct_then_finalize_witness :
  exists o w1 w2,
    JS_CallNative AdaptedMyType.construct UndefinedValue UndefinedValue
      [StringValue "42"] installed_world
    = Normal (Some (ObjectValue o)) w1
    /\ AdaptedMyType.finalize (Some o) w1 = Normal tt w2
    /\ free_store w2 = free_store installed_world.
Proof.
  apply (construct_then_finalize installed_world UndefinedValue UndefinedValue
           "42" 42 []);
    reflexivity.
Defined.

(** X8: [finalize] deletes the payload but leaves the pointer in the slot,
    so running it a second time on the same object deletes a dead pointer. *)
Theorem finalize_twice_undefined (w w' : World) (o : positive) (ob : JSObject)
    (p : positive) :
  objects w !! o = Some ob ->
  private ob = Some p ->
  AdaptedMyType.finalize (Some o) w = Normal tt w' ->
  objects w' !! o = Some ob /\ AdaptedMyType.finalize (Some o) w' = Undefined.
Proof.
  intros Ho Hpr. unfold AdaptedMyType.finalize, bind, JS_GetPrivate, class_of.
  rewrite Ho. destruct (classes w !! clasp ob) as [c|] eqn:Hc; [|discriminate].
  destruct (has_private c) eqn:Hp; [|discriminate]. rewrite Hpr.
  unfold delete_MyType. destruct (free_store w !! p) eqn:Hm; [|discriminate].
  intros [= <-]. cbn [objects classes free_store set_free_store].
  rewrite Ho, Hc, Hp, Hpr. split; [reflexivity|].
  unfold set_free_store at 1. cbn [free_store]. now rewrite lookup_delete_eq.
Qed.

Lemma finalize_twice_undefined_witness :
  objects (set_free_store (fun h => delete 1%positive h) world_with_five) !! 2%positive
  = Some {| clasp := 1; proto := Some 1%positive; private := Some 1%positive |}
  /\ AdaptedMyType.finalize (Some 2%positive)
       (set_free_store (fun h => delete 1%positive h) world_with_five)
     = Undefined.
Proof.
  apply (finalize_twice_undefined world_with_five _ 2
           {| clasp := 1; proto := Some 1%positive; private := Some 1%positive |} 1);
    reflexivity.
Defined.

(** ** Exclusive ownership *)

Lemma owned_installed_world : owned installed_world.
Proof.
  assert (R : objects installed_world
              = {[ 1%positive := {| clasp := 1; proto := None; private := None |} ]})
    by (vm_compute; reflexivity).
  intros o ob p Ho Hp. rewrite R in Ho.
  apply lookup_singleton_Some in Ho as [_ <-]. discriminate Hp.
Qed.

(** X9: [construct] keeps ownership exclusive: if every stored pointer was a
    live allocation held by one object only, that is still so after a new
    instance has been made. *)
Theorem construct_preserves_owned (w w' : World) (callee this : Value) (s : string)
    (v : Z) (rest : list Value) (r : option Value) :
  owned w ->
  MyType_installed w = true ->
  atoll s = Some v ->
  JS_CallNative AdaptedMyType.construct callee this (StringValue s :: rest) w
  = Normal r w' ->
  owned w'.
Proof.
  intros Hown Hi Hs Hcall.
  destruct (construct_spec w callee this s v rest Hi Hs)
    as (a & w1 & _ & Hcall1 & Hobj & Hfs & _).
  rewrite Hcall in Hcall1. injection Hcall1 as _ ->.
  set (o := fresh (dom (objects w))) in *.
  set (p := fresh (dom (free_store w))) in *.
  assert (Hfo : objects w !! o = None) by apply not_elem_of_dom, is_fresh.
  assert (Hfp : free_store w !! p = None) by apply not_elem_of_dom, is_fresh.
  assert (Hold : forall o1 ob1, objects w !! o1 = Some ob1 -> private ob1 <> Some p).
  { intros o1 ob1 H1 H2. destruct (Hown o1 ob1 p H1 H2) as [[x Hx] _]. congruence. }
  intros o1 ob1 p1 H1 Hp1. rewrite Hobj in H1. rewrite Hobj, Hfs.
  apply lookup_insert_Some in H1 as [[<- <-]|[Hne H1]].
  - cbn [private] in Hp1. injection Hp1 as <-.
    split; [rewrite lookup_insert_eq; eauto|].
    intros o' ob' H' Hp'.
    apply lookup_insert_Some in H' as [[<- _]|[_ H']]; [reflexivity|].
    exfalso. now apply (Hold o' ob').
  - destruct (Hown o1 ob1 p1 H1 Hp1) as [Hlive Huniq].
    assert (p1 <> p) by (intros ->; now apply (Hold o1 ob1)).
    split; [rewrite lookup_insert_ne by congruence; exact Hlive|].
    intros o' ob' H' Hp'.
    apply lookup_insert_Some in H' as [[<- <-]|[_ H']].
    + cbn [private] in Hp'. congruence.
    + now apply (Huniq o' ob').
Qed.

Lemma construct_preserves_owned_witness : owned world_with_five.
Proof.
  apply (construct_preserves_owned installed_world world_with_five
           UndefinedValue UndefinedValue "5" 5 [] (Some (ObjectValue 2))).
  - exact owned_installed_world.
  - reflexivity.
  - reflexivity.
  - reflexivity.
Defined.

Lemma owned_two_instance_world : owned two_instance_world.
Proof.
  assert (R : objects two_instance_world
              = <[ 3%positive := {| clasp := 1; proto := Some 1%positive;
                                    private := Some 2%positive |} ]>
                  (<[ 2%positive := {| clasp := 1; proto := Some 1%positive;
                                       private := Some 1%positive |} ]>
                     {[ 1%positive := {| clasp := 1; proto := None; private := None |} ]}))
    by (vm_compute; reflexivity).
  assert (F : free_store two_instance_world
              = <[ 2%positive := {| val := 7 |} ]> {[ 1%positive := {| val := 5 |} ]})
    by (vm_compute; reflexivity).
  assert (Hcases : forall o ob p,
             objects two_instance_world !! o = Some ob -> private ob = Some p ->
             (o = 2%positive /\ p = 1%positive) \/ (o = 3%positive /\ p = 2%positive)).
  { intros o ob p Ho Hp. rewrite R in Ho.
    apply lookup_insert_Some in Ho as [[<- <-]|[_ Ho]].
    { injection Hp as <-. right. split; reflexivity. }
    apply lookup_insert_Some in Ho as [[<- <-]|[_ Ho]].
    - injection Hp as <-. left. split; reflexivity.
    - apply lookup_singleton_Some in Ho as [_ <-]. discriminate Hp. }
  intros o ob p Ho Hp. split.
  - rewrite F. destruct (Hcases o ob p Ho Hp) as [[-> ->]|[-> ->]];
      [rewrite lookup_insert_ne by discriminate; rewrite lookup_singleton_eq
      |rewrite lookup_insert_eq]; eauto.
  - intros o' ob' Ho' Hp'.
    destruct (Hcases o ob p Ho Hp) as [[-> ->]|[-> ->]];
      destruct (Hcases o' ob' _ Ho' Hp') as [[-> E]|[-> E]];
      first [reflexivity | discriminate E].
Qed.

(** X10: under exclusive ownership, finalizing one object frees its own
    payload only: every other object keeps its slot, and the payload it
    points to is still allocated, with the same contents. *)
Theorem finalize_spares_other_payloads (w w' : World) (o : positive) :
  owned w ->
  AdaptedMyType.finalize (Some o) w = Normal tt w' ->
  forall o' ob' p',
    o' <> o ->
    objects w !! o' = Some ob' ->
    private ob' = Some p' ->
    objects w' !! o' = Some ob'
    /\ is_Some (free_store w' !! p')
    /\ free_store w' !! p' = free_store w !! p'.
Proof.
  intros Hown. unfold AdaptedMyType.finalize, bind, JS_GetPrivate, class_of.
  destruct (objects w !! o) as [ob|] eqn:Ho; [|discriminate].
  destruct (classes w !! clasp ob) as [c|]; [|discriminate].
  destruct (has_private c); [|discriminate].
  destruct (private ob) as [p|] eqn:Hpr.
  - unfold delete_MyType. destruct (free_store w !! p) eqn:Hm; [|discriminate].
    intros [= <-] o' ob' p' Hne Ho' Hp'.
    destruct (Hown o' ob' p' Ho' Hp') as [Hlive Huniq].
    assert (p <> p').
    { intros ->. apply Hne. symmetry. now apply (Huniq o ob). }
    cbn [objects free_store set_free_store].
    rewrite lookup_delete_ne by assumption.
    split; [exact Ho'|]. split; [exact Hlive|reflexivity].
  - intros [= <-] o' ob' p' Hne Ho' Hp'.
    destruct (Hown o' ob' p' Ho' Hp') as [Hlive _].
    split; [exact Ho'|]. split; [exact Hlive|reflexivity].
Qed.

Lemma finalize_spares_other_payloads_witness :
  objects (set_free_store (fun h => delete 1%positive h) two_instance_world) !! 3%positive
  = Some {| clasp := 1; proto := Some 1%positive; private := Some 2%positive |}
  /\ is_Some (free_store (set_free_store (fun h => delete 1%positive h)
                            two_instance_world) !! 2%positive)
  /\ free_store (set_free_store (fun h => delete 1%positive h) two_instance_world)
       !! 2%positive
     = free_store two_instance_world !! 2%positive.
Proof.
  apply (finalize_spares_other_payloads two_instance_world _ 2
           owned_two_instance_world eq_refl 3
           {| clasp := 1; proto := Some 1%positive; private := Some 2%positive |} 2).
  - discriminate.
  - reflexivity.
  - reflexivity.
Defined.

(** ** Printing and parsing *)

Lemma digit_char_inv d :
  0 <= d <= 9 ->
  isdigit (digit_char d) = true /\ digit_value (digit_char d) = d.
Proof.
  intros H.
  assert (d = 0 \/ d = 1 \/ d = 2 \/ d = 3 \/ d = 4 \/ d = 5 \/ d = 6 \/ d = 7
          \/ d = 8 \/ d = 9) as Hd by lia.
  repeat (destruct Hd as [->|Hd]; [split; reflexivity|]).
  subst d. split; reflexivity.
Qed.

(** What [utoa] pushes: a non-empty run of digits whose value is the number
    printed, with no leading zero unless the number is zero. *)
Lemma utoa_spec fuel :
  forall n,
    0 <= n < 10 ^ Z.of_nat fuel -> (1 <= fuel)%nat ->
    exists ds,
      (forall acc, utoa fuel n acc = ds ++ acc)
      /\ forallb isdigit ds = true
      /\ (forall a, accumulate a ds = a * 10 ^ Z.of_nat (length ds) + n)
      /\ (n = 0 -> ds = ["0"%char])
      /\ (0 < n -> exists c r, ds = c :: r /\ c <> "0"%char).
Proof.
  induction fuel as [|fuel IH]; intros n Hn Hf; [lia|].
  assert (Hm : 0 <= n mod 10 <= 9) by (pose proof (Z.mod_pos_bound n 10); lia).
  destruct (digit_char_inv (n mod 10) Hm) as [Hd Hv].
  destruct (n / 10 =? 0) eqn:E.
  - apply Z.eqb_eq in E.
    assert (Hsmall : n mod 10 = n) by (pose proof (Z.div_mod n 10); lia).
    exists [digit_char (n mod 10)].
    split; [intros acc; cbn [utoa]; now rewrite E|].
    split; [cbn [forallb]; now rewrite Hd|].
    split; [intros a; cbn [accumulate length]; rewrite Hd, Hv; lia|].
    split.
    + intros ->. reflexivity.
    + intros Hpos. exists (digit_char (n mod 10)), []. split; [reflexivity|].
      intros Hc. rewrite Hc in Hv. change (digit_value "0") with 0 in Hv. lia.
  - apply Z.eqb_neq in E.
    assert (Hq : 1 <= n / 10) by (pose proof (Z.div_pos n 10); lia).
    assert (Hqlt : n / 10 < 10 ^ Z.of_nat fuel).
    { apply Z.div_lt_upper_bound; [lia|].
      rewrite Nat2Z.inj_succ, Z.pow_succ_r in Hn by lia. lia. }
    assert (Hf' : (1 <= fuel)%nat).
    { destruct fuel; [simpl in Hqlt; lia|lia]. }
    destruct (IH (n / 10) (conj (Z.le_trans _ _ _ Z.le_0_1 Hq) Hqlt) Hf')
      as (ds & Hds & Hall & Hacc & _ & Hhd).
    exists (ds ++ [digit_char (n mod 10)]).
    split; [|split; [|split; [|split]]].
    + intros acc. cbn [utoa].
      destruct (n / 10 =? 0) eqn:E'; [apply Z.eqb_eq in E'; lia|].
      rewrite Hds. now rewrite <- app_assoc.
    + rewrite forallb_app, Hall. cbn [forallb]. now rewrite Hd.
    + intros a. rewrite accumulate_app by exact Hall. rewrite Hacc.
      cbn [accumulate]. rewrite Hd, Hv.
      rewrite length_app. cbn [length].
      rewrite Nat2Z.inj_add, Z.pow_add_r by lia.
      change (10 ^ Z.of_nat 1) with 10.
      pose proof (Z.div_mod n 10). lia.
    + intros H0. rewrite H0 in Hq. change (0 / 10) with 0 in Hq. lia.
    + intros _. destruct (Hhd (Z.lt_le_trans _ _ _ Z.lt_0_1 Hq)) as (c & r & -> & Hc).
      exists c, (r ++ [digit_char (n mod 10)]). split; [reflexivity|exact Hc].
Qed.

Lemma nonzero_led_canonical ds :
  nonzero_led ds ->
  canonical_chars ds = true /\ canonical_chars ("-"%char :: ds) = true.
Proof.
  intros (Hall & c & r & -> & Hc).
  pose proof Hall as Hall'. cbn [forallb] in Hall'.
  apply andb_true_iff in Hall' as [Hdc _].
  revert Hall Hc Hdc. unfold canonical_chars, canonical_digits.
  destruct c as [[] [] [] [] [] [] [] []]; intros Hall Hc Hdc;
    first [discriminate Hdc | exfalso; now apply Hc | split; exact Hall].
Qed.

(** The magnitude of a 64-bit integer fits the twenty rounds of [utoa]. *)
Lemma to_chars_cases v :
  in_int64 v = true ->
  (v = 0 /\ to_chars v = ["0"%char])
  \/ (0 < v /\ nonzero_led (to_chars v) /\ accumulate 0 (to_chars v) = v)
  \/ (v < 0 /\ exists ds, to_chars v = "-"%char :: ds /\ nonzero_led ds
                          /\ accumulate 0 ds = - v).
Proof.
  intros Hr. pose proof (int64_below_fuel v Hr) as Hb.
  destruct (Z.lt_trichotomy v 0) as [Hneg|[->|Hpos]].
  - right. right. split; [exact Hneg|].
    destruct (utoa_spec 20 (- v)) as (ds & Hds & Hall & Hacc & _ & Hhd);
      [simpl; lia|lia|].
    exists ds. unfold to_chars.
    destruct (v <? 0) eqn:E; [|apply Z.ltb_ge in E; lia].
    rewrite Hds, app_nil_r. split; [reflexivity|].
    split; [split; [exact Hall|apply Hhd; lia]|].
    rewrite Hacc. lia.
  - left. split; reflexivity.
  - right. left. split; [exact Hpos|].
    destruct (utoa_spec 20 v) as (ds & Hds & Hall & Hacc & _ & Hhd);
      [simpl; lia|lia|].
    unfold to_chars.
    destruct (v <? 0) eqn:E; [apply Z.ltb_lt in E; lia|].
    rewrite Hds, app_nil_r.
    split; [split; [exact Hall|now apply Hhd]|].
    rewrite Hacc. lia.
Qed.

Lemma strtoll_value_to_chars v :
  in_int64 v = true -> strtoll_value (to_chars v) = v.
Proof.
  intros Hr.
  destruct (to_chars_cases v Hr) as [[-> ->]|[(_ & Hnz & Hacc)|(_ & ds & -> & _ & Hacc)]].
  - reflexivity.
  - now rewrite strtoll_value_nonzero_led.
  - change (strtoll_value ("-"%char :: ds)) with (- accumulate 0 ds). lia.
Qed.

Lemma to_string_canonical_aux v :
  in_int64 v = true ->
  atoll (to_string v) = Some v /\ JS_NewStringCopyZ (to_string v) = to_string v.
Proof.
  intros Hr.
  assert (Hl : list_ascii_of_string (to_string v) = to_chars v)
    by apply list_ascii_of_string_of_list_ascii.
  split.
  - unfold atoll. rewrite Hl, strtoll_value_to_chars by exact Hr. now rewrite Hr.
  - apply JS_NewStringCopyZ_no_nul. rewrite Hl. apply canonical_chars_no_nul.
    destruct (to_chars_cases v Hr)
      as [[-> ->]|[(_ & Hnz & _)|(_ & ds & -> & Hnz & _)]].
    + reflexivity.
    + now apply nonzero_led_canonical.
    + now apply nonzero_led_canonical.
Qed.

(** X11: what [std::to_string] prints for a 64-bit integer is its canonical
    spelling, and [atoll] reads the value back from it: printing and parsing
    lose nothing over the whole range, both ends included. *)
Theorem to_string_canonical_and_parsed_back (v : Z) :
  in_int64 v = true ->
  canonical_int64 (to_string v) = true
  /\ atoll (to_string v) = Some v
  /\ JS_NewStringCopyZ (to_string v) = to_string v.
Proof.
  intros Hr.
  assert (Hc : canonical_chars (to_chars v) = true).
  { destruct (to_chars_cases v Hr)
      as [[-> ->]|[(_ & Hnz & _)|(_ & ds & -> & Hnz & _)]].
    - reflexivity.
    - now apply nonzero_led_canonical.
    - now apply nonzero_led_canonical. }
  assert (Hl : list_ascii_of_string (to_string v) = to_chars v)
    by apply list_ascii_of_string_of_list_ascii.
  split; [|split].
  - unfold canonical_int64. rewrite Hl, Hc, strtoll_value_to_chars by exact Hr.
    now rewrite Hr.
  - unfold atoll. rewrite Hl, strtoll_value_to_chars by exact Hr. now rewrite Hr.
  - apply JS_NewStringCopyZ_no_nul. rewrite Hl. now apply canonical_chars_no_nul.
Qed.

Lemma to_string_canonical_and_parsed_back_witness :
  canonical_int64 (to_string INT64_MIN) = true
  /\ atoll (to_string INT64_MIN) = Some INT64_MIN
  /\ JS_NewStringCopyZ (to_string INT64_MIN) = to_string INT64_MIN.
Proof.
  apply (to_string_canonical_and_parsed_back INT64_MIN). reflexivity.
Defined.

(** ** The accessors and the constructor together *)

(** The world an accessor leaves: the entry world with the argument vector
    of the call, the result in slot 0. *)
Lemma toString_world w callee o m args :
  holds w o m ->
  JS_CallNative AdaptedMyType.toString callee (ObjectValue o) args w
  = Normal (Some (StringValue (JS_NewStringCopyZ (to_string (val m)))))
      (set_vp (fun _ => StringValue (JS_NewStringCopyZ (to_string (val m)))
                        :: ObjectValue o :: args) w).
Proof.
  intros (ob & c & p & Ho & Hc & Hp & Hpr & Hm).
  unfold JS_CallNative, AdaptedMyType.toString, bind, thisv, reads, receiver. simpl.
  unfold JS_GetPrivate, class_of. simpl. rewrite Ho, Hc, Hp, Hpr. simpl.
  rewrite Hm. reflexivity.
Qed.

Lemma naive_toNumber_world w callee o m args :
  holds w o m ->
  JS_CallNative AdaptedMyType.toNumber callee (ObjectValue o) args w
  = Normal (Some (NumberValue (int64_to_double (val m))))
      (set_vp (fun _ => NumberValue (int64_to_double (val m))
                        :: ObjectValue o :: args) w).
Proof.
  intros (ob & c & p & Ho & Hc & Hp & Hpr & Hm).
  unfold JS_CallNative, AdaptedMyType.toNumber, bind, thisv, reads, receiver. simpl.
  unfold JS_GetPrivate, class_of. simpl. rewrite Ho, Hc, Hp, Hpr. simpl.
  rewrite Hm. reflexivity.
Qed.

(** X12: the accessors only read.  On a receiver that holds a live payload,
    [toString] and the first [toNumber] succeed and change nothing but the
    argument vector, so the receiver still holds the same payload and any
    later call of an accessor sees the same value. *)
Theorem accessors_read_only (w : World) (callee : Value) (o : positive)
    (m : MyType) (args : list Value) :
  holds w o m ->
  (exists r w',
      JS_CallNative AdaptedMyType.toString callee (ObjectValue o) args w
      = Normal (Some (StringValue r)) w'
      /\ classes w' = classes w /\ objects w' = objects w
      /\ free_store w' = free_store w /\ registry w' = registry w
      /\ pending_exception w' = pending_exception w
      /\ holds w' o m
      /\ exists w'',
           JS_CallNative AdaptedMyType.toString callee (ObjectValue o) args w'
           = Normal (Some (StringValue r)) w'')
  /\ (exists w',
        JS_CallNative AdaptedMyType.toNumber callee (ObjectValue o) args w
        = Normal (Some (NumberValue (int64_to_double (val m)))) w'
        /\ classes w' = classes w /\ objects w' = objects w
        /\ free_store w' = free_store w /\ registry w' = registry w
        /\ pending_exception w' = pending_exception w
        /\ holds w' o m).
Proof.
  intros H. split.
  - eexists _, _. split; [exact (toString_world w callee o m args H)|].
    do 5 (split; [reflexivity|]).
    split; [exact H|].
    eexists. apply toString_world. exact H.
  - eexists. split; [exact (naive_toNumber_world w callee o m args H)|].
    do 5 (split; [reflexivity|]). exact H.
Qed.

Lemma holds_world_with_five : holds world_with_five 2 {| val := 5 |}.
Proof.
  exists {| clasp := 1; proto := Some 1%positive; private := Some 1%positive |},
    {| class_name := "MyType"; class_flags := 1 |}, 1%positive.
  split; [reflexivity|]. split; [reflexivity|]. split; [reflexivity|].
  split; reflexivity.
Qed.

Lemma accessors_read_only_witness :
  (exists r w',
      JS_CallNative AdaptedMyType.toString UndefinedValue (ObjectValue 2) [] world_with_five
      = Normal (Some (StringValue r)) w'
      /\ classes w' = classes world_with_five /\ objects w' = objects world_with_five
      /\ free_store w' = free_store world_with_five
      /\ registry w' = registry world_with_five
      /\ pending_exception w' = pending_exception world_with_five
      /\ holds w' 2 {| val := 5 |}
      /\ exists w'',
           JS_CallNative AdaptedMyType.toString UndefinedValue (ObjectValue 2) [] w'
           = Normal (Some (StringValue r)) w'')
  /\ (exists w',
        JS_CallNative AdaptedMyType.toNumber UndefinedValue (ObjectValue 2) [] world_with_five
        = Normal (Some (NumberValue (int64_to_double 5))) w'
        /\ classes w' = classes world_with_five /\ objects w' = objects world_with_five
        /\ free_store w' = free_store world_with_five
        /\ registry w' = registry world_with_five
        /\ pending_exception w' = pending_exception world_with_five
        /\ holds w' 2 {| val := 5 |}).
Proof.
  exact (accessors_read_only world_with_five UndefinedValue 2 {| val := 5 |} []
           holds_world_with_five).
Defined.

(** X13: the string an instance prints makes an equal instance.  For a
    receiver holding a 64-bit value, [toString] followed by [construct] on
    the string it returned yields a new object, different from the receiver,
    that holds the same value, while the receiver keeps its own. *)
Theorem toString_then_construct (w : World) (callee this : Value) (o : positive)
    (m : MyType) :
  MyType_installed w = true ->
  holds w o m ->
  in_int64 (val m) = true ->
  exists s w1 o' w2,
    JS_CallNative AdaptedMyType.toString callee (ObjectValue o) [] w
    = Normal (Some (StringValue s)) w1
    /\ JS_CallNative AdaptedMyType.construct callee this [StringValue s] w1
       = Normal (Some (ObjectValue o')) w2
    /\ o' <> o
    /\ holds w2 o' {| val := val m |}
    /\ holds w2 o m.
Proof.
  intros Hi Hh Hr.
  destruct (to_string_canonical_aux (val m) Hr) as (Hat & Hcopy).
  pose proof (toString_world w callee o m [] Hh) as Hts.
  rewrite Hcopy in Hts.
  set (w1 := set_vp (fun _ => [StringValue (to_string (val m)); ObjectValue o]) w) in *.
  assert (Hi1 : MyType_installed w1 = true) by exact Hi.
  destruct (MyType_installed_inv w1 Hi1) as (a0 & c & Ha0 & Hc & Hp).
  destruct (construct_spec w1 callee this (to_string (val m)) (val m) [] Hi1 Hat)
    as (a & w2 & Ha & Hcall & Hobj & Hfs & Hcl & _).
  assert (a0 = a) as -> by congruence.
  destruct Hh as (ob & c' & p & Ho & Hc' & Hp' & Hpr & Hm).
  assert (Hfo : objects w1 !! fresh (dom (objects w1)) = None)
    by apply not_elem_of_dom, is_fresh.
  assert (Hfp : free_store w1 !! fresh (dom (free_store w1)) = None)
    by apply not_elem_of_dom, is_fresh.
  assert (Hne : fresh (dom (objects w1)) <> o).
  { intros E. rewrite E in Hfo. change (objects w1) with (objects w) in Hfo. congruence. }
  exists (to_string (val m)), w1, (fresh (dom (objects w1))), w2.
  split; [exact Hts|]. split; [exact Hcall|]. split; [exact Hne|]. split.
  - eexists _, c, _. rewrite Hobj, Hfs, Hcl.
    split; [apply lookup_insert_eq|]. split; [exact Hc|]. split; [exact Hp|].
    split; [reflexivity|]. apply lookup_insert_eq.
  - exists ob, c', p. rewrite Hobj, Hfs, Hcl.
    split; [rewrite lookup_insert_ne by exact Hne; exact Ho|].
    split; [exact Hc'|]. split; [exact Hp'|]. split; [exact Hpr|].
    rewrite lookup_insert_ne; [exact Hm|].
    intros E. rewrite E in Hfp. change (free_store w1) with (free_store w) in Hfp.
    congruence.
Qed.

Lemma toString_then_construct_witness :
  exists s w1 o' w2,
    JS_CallNative AdaptedMyType.toString UndefinedValue (ObjectValue 2) [] world_with_five
    = Normal (Some (StringValue s)) w1
    /\ JS_CallNative AdaptedMyType.construct UndefinedValue UndefinedValue
         [StringValue s] w1
       = Normal (Some (ObjectValue o')) w2
    /\ o' <> 2%positive
    /\ holds w2 o' {| val := 5 |}
    /\ holds w2 2 {| val := 5 |}.
Proof.
  apply (toString_then_construct world_with_five UndefinedValue UndefinedValue 2
           {| val := 5 |}).
  - reflexivity.
  - exact holds_world_with_five.
  - reflexivity.
Defined.

(** ** What [construct] accepts *)

(** X14: [construct] does not check its argument.  Unless the call has at
    least one argument and the first one is a string, it applies
    [Value::toString] to a value that is not a string. *)
Theorem construct_needs_string (n : nat) (w : World) :
  (forall s, ~ ((0 < n)%nat /\ vp w !! 2%nat = Some (StringValue s))) ->
  AdaptedMyType.construct n w = Undefined.
Proof.
  intros H. unfold AdaptedMyType.construct, bind, get, reads. cbn [argc].
  change (2 + 0)%nat with 2%nat.
  destruct (0 <? n)%nat eqn:E.
  - apply Nat.ltb_lt in E.
    destruct (vp w !! 2%nat) as [v|] eqn:Hv; [|reflexivity].
    destruct v; try reflexivity.
    exfalso. apply (H s). split; [exact E|reflexivity].
  - reflexivity.
Qed.

Lemma construct_needs_string_witness :
  AdaptedMyType.construct 0 (call_frame UndefinedValue [StringValue "5"] installed_world)
  = Undefined
  /\ AdaptedMyType.construct 1
       (call_frame UndefinedValue [NumberValue (int64_to_double 5)] installed_world)
     = Undefined.
Proof.
  split.
  - apply construct_needs_string. intros s [H _]. inversion H.
  - apply construct_needs_string. intros s [_ H]. discriminate H.
Defined.

Lemma skip_space_app ws l :
  forallb isspace ws = true -> skip_space (ws ++ l) = skip_space l.
Proof.
  induction ws as [|c ws IH]; [reflexivity|].
  cbn [forallb app skip_space]. intros H. apply andb_true_iff in H as [Hc Hws].
  rewrite Hc. now apply IH.
Qed.

Lemma accumulate_stops a text :
  match text with c :: _ => negb (isdigit c) | [] => true end = true ->
  accumulate a text = a.
Proof.
  destruct text as [|c r]; [reflexivity|].
  cbn [accumulate]. intros H. apply negb_true_iff in H. now rewrite H.
Qed.

Lemma strtoll_value_digit_run ws ds text :
  digits_then_text ws ds text = true ->
  strtoll_value (ws ++ ds ++ text) = accumulate 0 ds.
Proof.
  unfold digits_then_text. intros H.
  apply andb_true_iff in H as [H Htext].
  apply andb_true_iff in H as [H Hds].
  apply andb_true_iff in H as [Hws Hne].
  destruct ds as [|c r]; [discriminate Hne|].
  pose proof Hds as Hds'. cbn [forallb] in Hds'.
  apply andb_true_iff in Hds' as [Hc _].
  destruct (isdigit_inv c Hc) as (_ & _ & Hsp & _).
  transitivity (strtoll_value ((c :: r) ++ text)).
  - unfold strtoll_value. rewrite (skip_space_app ws _ Hws). reflexivity.
  - cbn [app]. rewrite (strtoll_value_digit c (r ++ text) Hc).
    change (c :: r ++ text) with ((c :: r) ++ text).
    rewrite accumulate_app by exact Hds. now apply accumulate_stops.
Qed.

(** X15: [construct] reads a run of digits and ignores its surroundings:
    white space before the digits and any text after them that does not go
    on with a digit leave the payload at the value of the digits alone. *)
Theorem construct_reads_digit_run (w : World) (callee this : Value)
    (ws ds text : list ascii) :
  MyType_installed w = true ->
  digits_then_text ws ds text = true ->
  in_int64 (accumulate 0 ds) = true ->
  exists o ob p w',
    JS_CallNative AdaptedMyType.construct callee this
      [StringValue (string_of_list_ascii (ws ++ ds ++ text))] w
    = Normal (Some (ObjectValue o)) w'
    /\ objects w' !! o = Some ob
    /\ private ob = Some p
    /\ free_store w' !! p = Some {| val := accumulate 0 ds |}.
Proof.
  intros Hi Hd Hr.
  assert (Hat : atoll (string_of_list_ascii (ws ++ ds ++ text))
                = Some (accumulate 0 ds)).
  { unfold atoll. rewrite list_ascii_of_string_of_list_ascii.
    rewrite (strtoll_value_digit_run ws ds text Hd). now rewrite Hr. }
  destruct (construct_spec w callee this _ _ [] Hi Hat)
    as (a & w' & _ & Hcall & Hobj & Hfs & _).
  eexists _, _, _, w'. split; [exact Hcall|].
  rewrite Hobj, Hfs. rewrite !lookup_insert_eq.
  split; [reflexivity|]. split; reflexivity.
Qed.

Lemma construct_reads_digit_run_witness :
  exists o ob p w',
    JS_CallNative AdaptedMyType.construct UndefinedValue UndefinedValue
      [StringValue "  12abc"] installed_world
    = Normal (Some (ObjectValue o)) w'
    /\ objects w' !! o = Some ob
    /\ private ob = Some p
    /\ free_store w' !! p = Some {| val := 12 |}.
Proof.
  apply (construct_reads_digit_run installed_world UndefinedValue UndefinedValue
           (list_ascii_of_string "  ") (list_ascii_of_string "12")
           (list_ascii_of_string "abc"));
    reflexivity.
Defined.

(** ** Constrained methods on instances *)

Lemma instanceOf_instance Args w U a o ob :
  classes_distinct w ->
  all_registered w Args = true ->
  In U Args ->
  registry w !! U = Some a ->
  objects w !! o = Some ob ->
  clasp ob = _jsclass a ->
  instanceOf Args (ObjectValue o) w
  = Normal (true, bool_decide (_proto a = Some o)) w.
Proof.
  intros Hd Hreg Hin Ha Ho Hc.
  induction Args as [|T Args IH]; [destruct Hin|].
  apply all_registered_cons in Hreg as [[a' Ha'] Hreg].
  simpl. unfold bind, fromContext. rewrite Ha'. simpl. rewrite Ho.
  destruct (bool_decide (clasp ob = _jsclass a')) eqn:E.
  - apply bool_decide_eq_true in E.
    assert (T = U) as -> by (apply (Hd T U a' a); congruence).
    assert (a' = a) as -> by congruence.
    reflexivity.
  - destruct Hin as [->|Hin].
    + apply bool_decide_eq_false in E. exfalso. apply E. congruence.
    + now apply IH.
Qed.

(** X16: on a receiver that is an instance of one of the allowed types, and
    is not that type's prototype when the prototype is excluded, a
    constrained method is exactly [wrapFunction] of the same callback: the
    checks add nothing to a valid call. *)
Theorem constrained_on_instance_is_wrapFunction
    (cppToJSException : exception -> World -> World)
    (T : Callback) (noProto : bool) (Args : list string) (argc : nat) (w : World)
    (U : string) (a : Adapter) (o : positive) (ob : JSObject) :
  classes_distinct w ->
  all_registered w Args = true ->
  In U Args ->
  registry w !! U = Some a ->
  receiver w = ObjectValue o ->
  objects w !! o = Some ob ->
  clasp ob = _jsclass a ->
  noProto = false \/ _proto a <> Some o ->
  wrapConstrainedMethod cppToJSException T noProto (instanceOf Args) argc w
  = wrapFunction cppToJSException T argc w.
Proof.
  intros Hd Hreg Hin Ha Hr Ho Hc Hnp.
  rewrite (constrained_runs_body cppToJSException T noProto (instanceOf Args) argc w
             (bool_decide (_proto a = Some o)) w).
  - reflexivity.
  - now rewrite Hr.
  - rewrite Hr. now apply instanceOf_instance with U ob.
  - destruct Hnp as [->|Hnp]; [reflexivity|].
    rewrite bool_decide_eq_false_2 by exact Hnp. apply andb_false_r.
Qed.

Lemma constrained_on_instance_is_wrapFunction_witness :
  wrapConstrainedMethod lippincott throwing_callback true
    (instanceOf ["Other"; "MyType"]) 0 instance_frame
  = wrapFunction lippincott throwing_callback 0 instance_frame.
Proof.
  apply (constrained_on_instance_is_wrapFunction lippincott throwing_callback true
           ["Other"; "MyType"] 0 instance_frame "MyType"
           {| _jsclass := 1; _proto := Some 1%positive |} 2
           {| clasp := 1; proto := Some 1%positive; private := Some 1%positive |});
    try reflexivity.
  - exact classes_distinct_two_type_world.
  - right. now left.
  - right. discriminate.
Defined.

(** ** The method table of [AdaptedMyTypeInfo] *)

Lemma instanceOf_own_prototype w U a p :
  installed w U a p ->
  instanceOf [U] (ObjectValue p) w = Normal (true, true) w.
Proof.
  intros (Ha & Hp & ob & Ho & Hc).
  simpl. unfold bind, fromContext. rewrite Ha. simpl. rewrite Ho.
  rewrite bool_decide_eq_true_2 by exact Hc.
  unfold ret. now rewrite Hp, bool_decide_eq_true_2.
Qed.

(** X17: every entry of [AdaptedMyTypeInfo::methods], whatever the bodies of
    the callbacks, refuses a receiver that is not an object and refuses the
    prototype of [MyType]; the error names the method as the table names
    it, and the world is otherwise the entry world. *)
Theorem methods_guard_their_receiver
    (cppToJSException : exception -> World -> World)
    (toNumber_call toString_call : CallArgs -> M unit)
    (entry : string * (nat -> M bool)) (argc : nat) (w : World) :
  In entry (AdaptedMyTypeInfo.methods cppToJSException toNumber_call toString_call) ->
  (fst entry = "toNumber" \/ fst entry = "toString")
  /\ (isObject (receiver w) = false ->
      snd entry argc w
      = Normal false
          (cppToJSException
             (runtime_error (fst entry +:+ " can only be called on objects")) w))
  /\ (forall a p,
        installed w AdaptedMyTypeInfo.className a p ->
        receiver w = ObjectValue p ->
        snd entry argc w
        = Normal false
            (cppToJSException
               (runtime_error (fst entry +:+ " cannot be called on the prototype")) w)).
Proof.
  intros [<-|[<-|[]]]; cbn [fst snd AdaptedMyTypeInfo.ATTACH_JS_CONSTRAINED_METHOD_NO_PROTO
                              AdaptedMyTypeInfo.DECLARE_JS_FUNCTION name].
  - split; [now left|]. split.
    + intros H. now rewrite constrained_not_object.
    + intros a p Hi Hr.
      rewrite (constrained_on_prototype cppToJSException _ _ argc w w);
        [reflexivity|now rewrite Hr|].
      rewrite Hr. now apply instanceOf_own_prototype with a.
  - split; [now right|]. split.
    + intros H. now rewrite constrained_not_object.
    + intros a p Hi Hr.
      rewrite (constrained_on_prototype cppToJSException _ _ argc w w);
        [reflexivity|now rewrite Hr|].
      rewrite Hr. now apply instanceOf_own_prototype with a.
Qed.

Lemma methods_guard_their_receiver_witness :
  snd toString_entry 0%nat string_frame
  = Normal false
      (lippincott (runtime_error "toString can only be called on objects") string_frame)
  /\ snd toString_entry 0%nat proto_frame
     = Normal false
         (lippincott (runtime_error "toString cannot be called on the prototype")
            proto_frame).
Proof.
  destruct (methods_guard_their_receiver lippincott (call marking_callback)
              (call marking_callback) toString_entry 0 string_frame
              (or_intror (or_introl eq_refl)))
    as (_ & H1 & _).
  destruct (methods_guard_their_receiver lippincott (call marking_callback)
              (call marking_callback) toString_entry 0 proto_frame
              (or_intror (or_introl eq_refl)))
    as (_ & _ & H2).
  split.
  - apply H1. reflexivity.
  - apply (H2 {| _jsclass := 1; _proto := Some 1%positive |} 1%positive);
      [|reflexivity].
    split; [reflexivity|]. split; [reflexivity|].
    exists {| clasp := 1; proto := None; private := None |}. split; reflexivity.
Defined.

(** ** The generic adapter against the hand-written one *)

